(** * Paice/Husk stemmer ([paicehusk_ansic.c]): a shallow embedding

    C strings are modelled by their contents, a [list ascii] without the
    terminating NUL.  The working buffers of the stemmer ([stem], [result],
    [new_stem]) are [LONGSTR] bytes long and the code guards every copy into
    them with [LONGSTR - 1]; these guards are part of the model.  The
    [SHORTSTR] fields of a rule and the [debug] buffer are written without
    any guard in the source: the model keeps their full contents, so it
    agrees with the program whenever those writes stay inside the buffers
    (beyond that the C program has no defined behaviour).  [fits_struct]
    says when a rule is one that [struct rule] can hold, and [main_stem]
    when a trace fits the [debug] buffer of [main]; what is proved of the
    contents of stored rules and of the output of [main] is proved under
    these bounds.

    The loop of [StemWord] need not end: its model takes a bound on the
    number of turns and answers [Unfinished] when the bound is used up.  The
    main loop of [LoadRules] reads a finite file: it returns, or it is
    caught in the loop that skips a comment at the end of the file
    ([Hangs]). *)

From Stdlib Require Import ZArith Ascii String DecimalString.
From stdpp Require Import base tactics option list strings.

Local Open Scope Z_scope.
Local Open Scope bool_scope.

(** ** Characters and C strings *)

Abbreviation cstr := (list ascii).

(** String literals of the source, as C strings. *)
Definition lit (s : string) : cstr := list_ascii_of_string s.

Definition SHORTSTR : nat := 63.
Definition LONGSTR : nat := 255.

(** The range of an [int]. *)
Definition INT_MIN : Z := -2147483648.
Definition INT_MAX : Z := 2147483647.

(** The value of a [char] holding byte [c] ([char] is signed here; every
    test the program makes gives the same answer for an unsigned [char]). *)
Definition char_code (c : ascii) : Z :=
  let v := Z.of_N (N_of_ascii c) in
  if 128 <=? v then v - 256 else v.

Definition strlen (s : cstr) : nat := length s.

(** [s[i]]; the terminating NUL is what is read at [i = strlen s]. *)
Definition char_at (s : cstr) (i : nat) : ascii := nth i s zero.

(** [strchr(s, c) != NULL], for a character [c] other than NUL. *)
Definition strchr (s : cstr) (c : ascii) : bool := existsb (Ascii.eqb c) s.

(** [strcmp(a, b) != 0]. *)
Definition strcmp (a b : cstr) : bool := negb (bool_decide (a = b)).

(** [strncpy(dst, src, n); dst[n] = '\0';] leaves the first [n] characters
    of [src] in [dst]. *)
Definition strncpy (src : cstr) (n : nat) : cstr := take n src.

(** [strncat(dst, src, n)] appends at most [n] characters of [src]. *)
Definition strncat (dst src : cstr) (n : nat) : cstr := dst ++ take n src.

(** [s[n] = 0] for [0 <= n]: the string ends at index [n].  (An index
    above the length leaves the string as it is; [ApplyRule] comes to it
    only for a negative remove count, which [LoadRules] stores for no
    number that is an [int].) *)
Definition set_nul (s : cstr) (n : Z) : cstr := take (Z.to_nat n) s.

(** ** Rules *)

Record rule_t := mk_rule {
  rule_intact : bool;
  rule_remove : Z;
  rule_restem : bool;
  rule_suffix : cstr;
  rule_append : cstr;
  rule_id : cstr
}.

(** The 26 list heads [rule_t ** rules]; a chain of [next] pointers is a
    list, [NULL] the empty list. *)
Abbreviation ruleset := (list (list rule_t)).

(** The rules that [struct rule] can hold: each string lies, with its
    terminating NUL, in its [char[SHORTSTR]] field, and the remove count is
    an [int]. *)
Definition fits_struct (rule : rule_t) : bool :=
  (strlen (rule_suffix rule) <? SHORTSTR)%nat &&
  (strlen (rule_append rule) <? SHORTSTR)%nat &&
  (strlen (rule_id rule) <? SHORTSTR)%nat &&
  (INT_MIN <=? rule_remove rule) && (rule_remove rule <=? INT_MAX).

Definition fits_table (rules : ruleset) : Prop :=
  Forall (Forall (fun rule => fits_struct rule = true)) rules.

(** ** IsValid *)

(** The [case] labels of the [switch (stem[0])]. *)
Definition is_case_vowel (c : ascii) : bool :=
  Ascii.eqb c "a" || Ascii.eqb c "e" || Ascii.eqb c "i" ||
  Ascii.eqb c "o" || Ascii.eqb c "u".

Definition IsValid (stem : cstr) : bool :=
  if is_case_vowel (char_at stem 0) then (2 <=? strlen stem)%nat
  else (3 <=? strlen stem)%nat &&
       (strchr stem "a" || strchr stem "e" || strchr stem "i" ||
        strchr stem "o" || strchr stem "u" || strchr stem "y").

(** ** RuleMatches *)

Definition RuleMatches (rule : rule_t) (stem : cstr) (intact : bool) : bool :=
  if negb intact && rule_intact rule then false
  else if (strlen stem <? strlen (rule_suffix rule))%nat then false
  else if strcmp (rule_suffix rule)
                 (drop (strlen stem - strlen (rule_suffix rule)) stem)
       then false
  else true.

(** ** ApplyRule *)

Definition ApplyRule (rule : rule_t) (stem : cstr) : cstr :=
  let new_stem := strncpy stem (LONGSTR - 1) in
  let new_stem :=
    if rule_remove rule =? 0 then new_stem
    else
      let newlen := Z.of_nat (strlen new_stem) - rule_remove rule in
      let newlen := if newlen <? 0 then 0 else newlen in
      set_nul new_stem newlen in
  strncat new_stem (rule_append rule) (LONGSTR - 1 - strlen new_stem).

(** ** StemWord *)

(** The local variables of the loop, with the [debug] buffer. *)
Record stem_state := mk_state {
  st_stem : cstr;
  st_intact : bool;
  st_restem : bool;
  st_debug : cstr
}.

(** [rules[last_letter - 97]]: [None] when the index is outside the array
    (the program then reads outside [rules]). *)
Definition bucket (rules : ruleset) (last_letter : ascii) : option (list rule_t) :=
  let idx := char_code last_letter - 97 in
  if (0 <=? idx) && (idx <=? 25) then rules !! Z.to_nat idx else None.

(** The [for] loop over one chain: the first rule that matches and whose
    result is valid, with that result. *)
Fixpoint scan_rules (chain : list rule_t) (stem : cstr) (intact : bool)
  : option (rule_t * cstr) :=
  match chain with
  | [] => None
  | rule :: next =>
      if negb (RuleMatches rule stem intact) then scan_rules next stem intact
      else
        let result := ApplyRule rule stem in
        if negb (IsValid result) then scan_rules next stem intact
        else Some (rule, result)
  end.

(** One turn of the [while (restem)] body.  ([strlen stem - 1] is only
    meaningful for a non-empty stem; the loop is entered with valid stems
    only, and an empty one gets no bucket here.) *)
Definition stem_pass (rules : ruleset) (st : stem_state) : option stem_state :=
  let stem := st_stem st in
  let last_letter := char_at stem (strlen stem - 1) in
  match bucket rules last_letter with
  | None => None
  | Some chain =>
      match scan_rules chain stem (st_intact st) with
      | None => Some (mk_state stem (st_intact st) false (st_debug st))
      | Some (rule, result) =>
          let stem' := strncpy result (LONGSTR - 1) in
          Some (mk_state stem' false (rule_restem rule)
                  (st_debug st ++ lit " =" ++ rule_id rule ++ lit "=> " ++ stem'))
      end
  end.

Inductive stem_result :=
  | Stemmed (stem debug : cstr)   (* the call returns *)
  | BadIndex                      (* [rules] indexed outside its 26 entries *)
  | Unfinished.                   (* still looping when the fuel is used up *)

Fixpoint stem_loop (fuel : nat) (rules : ruleset) (st : stem_state) : stem_result :=
  if st_restem st then
    match fuel with
    | O => Unfinished
    | S fuel' =>
        match stem_pass rules st with
        | None => BadIndex
        | Some st' => stem_loop fuel' rules st'
        end
    end
  else Stemmed (st_stem st) (st_debug st).

Definition StemWord (fuel : nat) (word : cstr) (rules : ruleset) : stem_result :=
  let stem := strncpy word (LONGSTR - 1) in
  if negb (IsValid stem) then Stemmed stem []
  else stem_loop fuel rules (mk_state stem true true stem).

(** ** ReverseString *)

(** The [for] loop, [todo] turns left, swapping [str[i]] and [str[last - i]]. *)
Fixpoint reverse_loop (todo : nat) (i last : Z) (str : cstr) : cstr :=
  match todo with
  | O => str
  | S todo' =>
      let ch := char_at str (Z.to_nat (last - i)) in
      let str := <[Z.to_nat (last - i) := char_at str (Z.to_nat i)]> str in
      let str := <[Z.to_nat i := ch]> str in
      reverse_loop todo' (i + 1) last str
  end.

Definition ReverseString (str : cstr) : cstr :=
  let last := Z.of_nat (strlen str) - 1 in
  let half := Z.quot (last + 1) 2 in
  reverse_loop (Z.to_nat half) 0 last str.

(** ** LoadRules *)

(** <ctype.h> in the "C" locale (the program never calls [setlocale]), on
    the value of a [char]; all three are false on [EOF] and on the bytes
    above 127. *)
Definition isspace (v : Z) : bool := (v =? 32) || ((9 <=? v) && (v <=? 13)).
Definition isalpha (v : Z) : bool :=
  ((65 <=? v) && (v <=? 90)) || ((97 <=? v) && (v <=? 122)).
Definition isdigit (v : Z) : bool := (48 <=? v) && (v <=? 57).

(** The rule file from the character held in [file_ch] on: the head of the
    list is [file_ch], the tail is what [fgetc] has yet to deliver, and the
    empty list is the end of the file, where [fgetc] returns [EOF] on every
    call. *)
Abbreviation input := (list ascii).

(** The value of [file_ch]: [EOF] converted to [char] at the end of file. *)
Definition file_ch (inp : input) : Z :=
  match inp with
  | [] => -1
  | c :: _ => char_code c
  end.

(** [file_ch = fgetc(rulefile)]. *)
Definition fgetc (inp : input) : input := tail inp.

(** [while (p(file_ch)) { buf[str_idx++] = file_ch; file_ch = fgetc(rulefile); }]
    for [p] one of the <ctype.h> tests: the run read and the input left. *)
Fixpoint read_run (p : Z -> bool) (inp : input) : cstr * input :=
  match inp with
  | [] => ([], [])
  | c :: rest =>
      if p (char_code c) then
        let '(run, inp') := read_run p rest in (c :: run, inp')
      else ([], inp)
  end.

(** [while (file_ch && file_ch != '\n') file_ch = fgetc(rulefile);]
    At the end of the file [file_ch] stays [EOF], which is neither: the loop
    never ends ([None]). *)
Fixpoint skip_line (inp : input) : option input :=
  match inp with
  | [] => None
  | c :: rest =>
      if negb (char_code c =? 0) && negb (char_code c =? 10)
      then skip_line rest
      else Some inp
  end.

(** [atoi] on a run of digits.  C defines the result only when the value
    fits an [int]; [fits_struct] asks that of the count of a rule. *)
Definition atoi (digits : cstr) : Z :=
  fold_left (fun acc c => acc * 10 + (char_code c - 48)) digits 0.

(** [strstr(hay, needle) != NULL]. *)
Fixpoint strstr (hay needle : cstr) : bool :=
  if bool_decide (needle `prefix_of` hay) then true
  else match hay with
       | [] => false
       | _ :: hay' => strstr hay' needle
       end.

(** [sprintf(rule->id, "(%d:", line)]. *)
Definition sprintf_id (line : Z) : cstr :=
  lit "(" ++ lit (NilZero.string_of_int (Z.to_int line)) ++ lit ":".

Inductive load_result :=
  | Loaded (rules : ruleset)   (* [return rules] *)
  | Invalid                    (* "Invalid rule encountered": [return NULL] *)
  | Hangs                      (* the comment-skipping loop never ends *)
  | OutOfFuel.

(** What the body of the main loop does with one rule, from [line++] to the
    test for the pseudo-rule.  The strings of the rule are kept at their
    full length; the rule is what the program has stored in its
    [calloc]'ed [struct rule] when it satisfies [fits_struct] (the label
    holds every character of the entry, so a label that fits [id] keeps
    every write inside its array). *)
Inductive entry_result :=
  | EInvalid
  | EStop
  | ERule (rule_idx : Z) (rule : rule_t) (inp : input).

Definition read_entry (line : Z) (inp : input) : entry_result :=
  let rule_idx := file_ch inp - 97 in
  if (rule_idx <? 0) || (25 <? rule_idx) then EInvalid
  else
    let id := sprintf_id line in
    (* get suffix string *)
    let '(suffix, inp) := read_run isalpha inp in
    let id := id ++ suffix in
    let suffix := ReverseString suffix in
    (* check for intact flag *)
    let '(intact, id, inp) :=
      if file_ch inp =? 42 then (true, id ++ lit "*", fgetc inp)
      else (false, id, inp) in
    (* get remove count *)
    let '(tmp_str, inp) := read_run isdigit inp in
    let id := id ++ tmp_str in
    let remove := if (strlen tmp_str =? 0)%nat then 0 else atoi tmp_str in
    (* get append string *)
    let '(append, inp) := read_run isalpha inp in
    let id := id ++ append in
    (* get continue/stop character *)
    let finish (restem : bool) (term : cstr) :=
      let id := id ++ term ++ lit ")" in
      if strstr id (lit ":end0.)") then EStop
      else ERule rule_idx (mk_rule intact remove restem suffix append id) inp in
    if file_ch inp =? 62 then finish true (lit ">")
    else if negb (file_ch inp =? 46) then EInvalid
    else finish false (lit ".").

(** Adding a rule at the end of the chain of its letter. *)
Definition add_rule (rules : ruleset) (rule_idx : Z) (rule : rule_t) : ruleset :=
  alter (fun chain => chain ++ [rule]) (Z.to_nat rule_idx) rules.

(** The main loop; [inp] is the file as left by the previous turn, [file_ch]
    being the character the loop test has just read. *)
Fixpoint load_loop (fuel : nat) (rules : ruleset) (line : Z) (inp : input)
  : load_result :=
  match fuel with
  | O => OutOfFuel
  | S fuel' =>
      if file_ch inp =? 0 then Loaded rules
      else if isspace (file_ch inp) then load_loop fuel' rules line (fgetc inp)
      else
        let line := line + 1 in
        match read_entry line inp with
        | EInvalid => Invalid
        | EStop => Loaded rules
        | ERule rule_idx rule inp =>
            let rules := add_rule rules rule_idx rule in
            match skip_line inp with
            | None => Hangs
            | Some inp => load_loop fuel' rules line (fgetc inp)
            end
        end
  end.

(** [LoadRules] on the contents of an opened rule file.  Every turn of the
    main loop that does not return reads at least one character, so the
    fuel given here is never used up (see [LoadRules_fuel]). *)
Definition LoadRules (file : list ascii) : load_result :=
  load_loop (S (length file)) (replicate 26 []) 0 file.

(** ** The specification's wording, for comparison *)

(** "starts with a vowel (a,e,i,o,u)". *)
Definition starts_with_vowel (candidate : cstr) : Prop :=
  exists c rest, candidate = c :: rest /\ c ∈ lit "aeiou".

(** "contains at least one of a,e,i,o,u,y anywhere in the string". *)
Definition contains_vowel_or_y (candidate : cstr) : Prop :=
  exists c, c ∈ lit "aeiouy" /\ c ∈ candidate.

(** "remove min(rule.remove_count, len(current)) trailing characters from
    current, then append rule.append". *)
Definition spec_candidate (rule : rule_t) (current : cstr) : cstr :=
  let k := Nat.min (Z.to_nat (rule_remove rule)) (length current) in
  take (length current - k) current ++ rule_append rule.

(** ** Auxiliary notions used in the statements *)

(** The state after [n] further turns of the [while (restem)] loop started
    in [st], when the loop makes that many turns. *)
Fixpoint stem_states (n : nat) (rules : ruleset) (st : stem_state)
  : option stem_state :=
  match n with
  | O => Some st
  | S n' =>
      if st_restem st then
        match stem_pass rules st with
        | None => None
        | Some st' => stem_states n' rules st'
        end
      else None
  end.

(** Lowercase letters only, as [main] passes words to [StemWord]. *)
Definition lowercase (s : cstr) : Prop :=
  Forall (fun c => 97 <= char_code c <= 122) s.

(** A continuing rule that removes more than it appends, and no more than
    its own suffix. *)
Definition shortening (rule : rule_t) : Prop :=
  rule_restem rule = true ->
  Z.of_nat (length (rule_append rule)) < rule_remove rule
    <= Z.of_nat (length (rule_suffix rule)).

Definition newline : ascii := "010"%char.

(** A rule file in the style of the Paice/Husk rule set, and its rules. *)
Definition sample_file : list ascii :=
  lit "sei3y>" ++ newline :: lit "gni3>" ++ newline ::
  lit "y1i." ++ newline :: lit "end0." ++ [newline].

Definition sample_rules : ruleset :=
  Eval vm_compute in
    match LoadRules sample_file with
    | Loaded rules => rules
    | _ => []
    end.

(** The character found where the terminator of the entry at [inp] is
    expected: after the suffix letters, the optional [*], the digits and the
    append letters (it is [-1] when the file ends there). *)
Definition entry_terminator (inp : input) : Z :=
  let '(_, inp) := read_run isalpha inp in
  let inp := if file_ch inp =? 42 then fgetc inp else inp in
  let '(_, inp) := read_run isdigit inp in
  let '(_, inp) := read_run isalpha inp in
  file_ch inp.

(** The rule read from an entry written as the grammar says. *)
Definition entry_rule (line : Z) (raw flag digits apd : cstr) (term : ascii)
  : rule_t :=
  mk_rule (bool_decide (flag = lit "*"))
          (if digits is [] then 0 else atoi digits)
          (bool_decide (term = ">"%char))
          (rev raw) apd
          (sprintf_id line ++ raw ++ flag ++ digits ++ apd ++ [term] ++ lit ")").

(** The labels of the rules of [order] begin with the numbers 1, 2, 3,
    ... in this order, each written as [sprintf_id] writes it. *)
Definition numbered (order : list rule_t) : Prop :=
  forall i rule,
    order !! i = Some rule ->
    sprintf_id (Z.of_nat (S i)) `prefix_of` rule_id rule.

(** [loop_at file rules line inp]: [LoadRules], run on [file], comes to the
    test of its main loop with the rules [rules] stored so far, [line] rules
    counted, and [inp] as the input, its head being the character the test
    has just read.  These are the turns of [load_loop] that go on: a
    whitespace character, or a rule that is stored. *)
Inductive loop_at (file : list ascii) : ruleset -> Z -> input -> Prop :=
  | loop_start : loop_at file (replicate 26 []) 0 file
  | loop_space rules line inp :
      loop_at file rules line inp ->
      file_ch inp <> 0 -> isspace (file_ch inp) = true ->
      loop_at file rules line (fgetc inp)
  | loop_rule rules line inp rule_idx rule inp' inp'' :
      loop_at file rules line inp ->
      file_ch inp <> 0 -> isspace (file_ch inp) = false ->
      read_entry (line + 1) inp = ERule rule_idx rule inp' ->
      skip_line inp' = Some inp'' ->
      loop_at file (add_rule rules rule_idx rule) (line + 1) (fgetc inp'').

(** What holds of the suffix of a rule stored in bucket [idx]: it is not
    empty, it is made of letters, and its last letter is the lowercase
    letter of the bucket. *)
Definition suffix_ok (idx : nat) (rule : rule_t) : Prop :=
  rule_suffix rule <> [] /\
  Forall (fun c => isalpha (char_code c) = true) (rule_suffix rule) /\
  exists c, last (rule_suffix rule) = Some c /\ char_code c = 97 + Z.of_nat idx.

Definition ruleset_ok (rules : ruleset) : Prop :=
  length rules = 26%nat /\
  forall idx chain rule,
    rules !! idx = Some chain -> rule ∈ chain -> suffix_ok idx rule.

(** ** main: the words of one token *)

Definition isupper (v : Z) : bool := (65 <=? v) && (v <=? 90).

(** [if (isupper( *strend)) *strend = tolower( *strend);] *)
Definition lower_char (c : ascii) : ascii :=
  if isupper (char_code c) then ascii_of_N (N_of_ascii c + 32) else c.

(** [while ( *strbegin && !isalpha( *strbegin)) strbegin++;] on the
    characters from [strbegin] to the end of the token. *)
Fixpoint skip_nonalpha (s : cstr) : cstr :=
  match s with
  | [] => []
  | c :: rest =>
      if negb (char_code c =? 0) && negb (isalpha (char_code c))
      then skip_nonalpha rest
      else s
  end.

(** The loop [while (strbegin < origend)] of [main] on one token read by
    [fscanf] (a string without whitespace that fits [line]): the words
    handed to [StemWord], in order.  [strbegin] is the
    token from the pointer of that name on; after a word, or where there is
    none, the loop goes on one character after [strend]. *)
Fixpoint main_words (fuel : nat) (strbegin : cstr) : list cstr :=
  match fuel with
  | O => []
  | S fuel' =>
      match strbegin with
      | [] => []
      | _ :: _ =>
          let strbegin := skip_nonalpha strbegin in
          let '(word, strend) := read_run isalpha strbegin in
          let word := map lower_char word in
          (if word is [] then [] else [word]) ++ main_words fuel' (tail strend)
      end
  end.

(** Every turn moves [strbegin] forward, so the length of the token bounds
    the number of turns (see [main_words_fuel]). *)
Definition main_line (line : cstr) : list cstr :=
  main_words (S (length line)) line.




(** * Properties *)

(** ** Acceptability *)

Lemma strchr_elem (s : cstr) (c : ascii) : strchr s c = true <-> c ∈ s.
Proof.
  unfold strchr. rewrite existsb_exists. split.
  - intros (x & Hin & Heq). apply Ascii.eqb_eq in Heq. subst x.
    by apply list_elem_of_In.
  - intros Hin. exists c. split; [by apply list_elem_of_In | apply Ascii.eqb_refl].
Qed.

Lemma is_case_vowel_elem (c : ascii) :
  is_case_vowel c = true <-> c ∈ lit "aeiou".
Proof.
  unfold is_case_vowel, lit. simpl.
  rewrite !orb_true_iff, !Ascii.eqb_eq, !elem_of_cons, elem_of_nil.
  tauto.
Qed.

Lemma starts_with_vowel_case (stem : cstr) :
  starts_with_vowel stem <-> is_case_vowel (char_at stem 0) = true.
Proof.
  rewrite is_case_vowel_elem. unfold starts_with_vowel. split.
  - intros (c & rest & -> & Hc). exact Hc.
  - destruct stem as [|c rest]; simpl.
    + intros H. exfalso. revert H. unfold lit. simpl.
      rewrite !elem_of_cons, elem_of_nil. intuition discriminate.
    + intros H. by exists c, rest.
Qed.

Lemma any_strchr_contains (stem : cstr) :
  strchr stem "a" || strchr stem "e" || strchr stem "i" ||
  strchr stem "o" || strchr stem "u" || strchr stem "y" = true
  <-> contains_vowel_or_y stem.
Proof.
  unfold contains_vowel_or_y, lit. simpl.
  rewrite !orb_true_iff, !strchr_elem. split.
  - intros H. decompose [or] H;
      (eexists; split; [|eassumption]); rewrite !elem_of_cons; tauto.
  - intros (c & Hc & Hin). revert Hc.
    rewrite !elem_of_cons, elem_of_nil.
    intros H. decompose [or] H; subst; tauto.
Qed.

(** C2. [IsValid] accepts a candidate that starts with one of a,e,i,o,u
    exactly when it has at least 2 characters, and any other candidate
    exactly when it has at least 3 characters and contains one of
    a,e,i,o,u,y.  ([IsValid] is a function of its argument alone.) *)
Theorem IsValid_spec (candidate : cstr) :
  (starts_with_vowel candidate ->
     (IsValid candidate = true <-> (2 <= length candidate)%nat)) /\
  (~ starts_with_vowel candidate ->
     (IsValid candidate = true <->
        (3 <= length candidate)%nat /\ contains_vowel_or_y candidate)).
Proof.
  unfold IsValid, strlen. split; intros Hv.
  - apply starts_with_vowel_case in Hv. rewrite Hv.
    apply Nat.leb_le.
  - rewrite starts_with_vowel_case in Hv.
    apply not_true_is_false in Hv. rewrite Hv.
    rewrite andb_true_iff, Nat.leb_le, any_strchr_contains. tauto.
Qed.

Lemma IsValid_spec_witness :
  (IsValid (lit "at") = true <-> (2 <= length (lit "at"))%nat) /\
  (IsValid (lit "by") = true <->
     (3 <= length (lit "by"))%nat /\ contains_vowel_or_y (lit "by")).
Proof.
  split.
  - apply (proj1 (IsValid_spec (lit "at"))).
    exists "a"%char, (lit "t"). split; [reflexivity|].
    unfold lit; simpl. rewrite !elem_of_cons. tauto.
  - apply (proj2 (IsValid_spec (lit "by"))).
    intros (c & rest & Heq & Hc). injection Heq as <- _.
    revert Hc. unfold lit; simpl.
    rewrite !elem_of_cons, elem_of_nil. intuition discriminate.
Defined.

(** ** ApplyRule *)

Lemma strncpy_length (src : cstr) (n : nat) : (length (strncpy src n) <= n)%nat.
Proof. unfold strncpy. rewrite length_take. lia. Qed.

Lemma strncpy_short (src : cstr) (n : nat) :
  (length src <= n)%nat -> strncpy src n = src.
Proof. intros H. unfold strncpy. by apply take_ge. Qed.

Lemma ApplyRule_length (rule : rule_t) (stem : cstr) :
  (length (ApplyRule rule stem) <= LONGSTR - 1)%nat.
Proof.
  unfold ApplyRule, strncat, set_nul, strlen.
  pose proof (strncpy_length stem (LONGSTR - 1)) as Hs.
  destruct (rule_remove rule =? 0);
    rewrite length_app, !length_take; lia.
Qed.

(** The characters left by the removal step are those the specification
    keeps. *)
Lemma removal_step (remove : Z) (s : cstr) :
  (if remove =? 0 then s
   else set_nul s (let newlen := Z.of_nat (strlen s) - remove in
                   if newlen <? 0 then 0 else newlen))
  = take (length s - Nat.min (Z.to_nat remove) (length s)) s.
Proof.
  unfold set_nul, strlen.
  destruct (Z.eqb_spec remove 0) as [->|Hne].
  - simpl. rewrite Nat.sub_0_r. by rewrite take_ge.
  - cbv zeta. destruct (Z.ltb_spec (Z.of_nat (length s) - remove) 0) as [Hlt|Hge].
    + f_equal. lia.
    + destruct (Z.le_gt_cases 0 remove) as [Hpos|Hneg].
      * f_equal. lia.
      * rewrite !take_ge by lia. reflexivity.
Qed.

Lemma ApplyRule_cut (rule : rule_t) (s : cstr) :
  ApplyRule rule s
    = take (LONGSTR - 1) (spec_candidate rule (take (LONGSTR - 1) s)).
Proof.
  unfold ApplyRule, spec_candidate, strncat, strncpy.
  cbv zeta. rewrite removal_step.
  set (s' := take (LONGSTR - 1) s).
  assert (length s' <= LONGSTR - 1)%nat
    by (subst s'; rewrite length_take; lia).
  set (base := take _ s').
  assert (length base <= LONGSTR - 1)%nat
    by (subst base; rewrite length_take; lia).
  rewrite take_app. rewrite (take_ge base) by lia. reflexivity.
Qed.

(** C4 (as amended). The candidate is the stem with
    [min remove_count (length stem)] trailing characters removed and the
    append string added, cut to the [LONGSTR - 1] characters that the stem
    buffers hold; it is exactly the specified string whenever that one has
    at most [LONGSTR - 1] characters.  The removal never takes more than the
    stem has. *)
Theorem ApplyRule_candidate (rule : rule_t) (current : cstr) :
  ApplyRule rule current
    = take (LONGSTR - 1) (spec_candidate rule (take (LONGSTR - 1) current)) /\
  ((length current <= LONGSTR - 1)%nat ->
   (length (spec_candidate rule current) <= LONGSTR - 1)%nat ->
   ApplyRule rule current = spec_candidate rule current) /\
  (Nat.min (Z.to_nat (rule_remove rule)) (length current) <= length current)%nat.
Proof.
  split; [apply ApplyRule_cut|]. split; [|lia].
  intros Hcur Hcand. rewrite ApplyRule_cut.
  rewrite (take_ge current) by lia. by rewrite take_ge.
Qed.

Lemma ApplyRule_candidate_witness :
  ApplyRule (mk_rule false 3 false (lit "ies") (lit "y") []) (lit "ponies")
  = lit "pony".
Proof.
  destruct (ApplyRule_candidate
              (mk_rule false 3 false (lit "ies") (lit "y") []) (lit "ponies"))
    as (_ & H & _).
  rewrite H; [reflexivity|simpl; lia|simpl; lia].
Defined.

(** C4 fails as stated at a stem that fills the buffer: the append string
    is dropped. *)
Lemma ApplyRule_full_buffer :
  let rule := mk_rule false 0 false (lit "a") (lit "s") [] in
  let current := replicate 254 "a"%char in
  ApplyRule rule current = current /\
  ApplyRule rule current <> spec_candidate rule current.
Proof.
  cbv zeta. split; [by vm_compute|].
  intros H. apply (f_equal length) in H. vm_compute in H. discriminate.
Qed.

(** ** The stemming loop *)

Lemma scan_rules_first (pre post : list rule_t) (rule : rule_t)
    (stem : cstr) (intact : bool) :
  Forall (fun r => RuleMatches r stem intact = false \/
                   IsValid (ApplyRule r stem) = false) pre ->
  RuleMatches rule stem intact = true ->
  IsValid (ApplyRule rule stem) = true ->
  scan_rules (pre ++ rule :: post) stem intact = Some (rule, ApplyRule rule stem).
Proof.
  intros Hpre Hm Hv. induction Hpre as [|r pre Hr _ IH]; simpl.
  - by rewrite Hm, Hv.
  - destruct Hr as [Hr|Hr]; rewrite Hr; simpl; [exact IH|].
    destruct (RuleMatches r stem intact); simpl; exact IH.
Qed.

Lemma scan_rules_Some (chain : list rule_t) (stem : cstr) (intact : bool)
    (rule : rule_t) (result : cstr) :
  scan_rules chain stem intact = Some (rule, result) ->
  rule ∈ chain /\ RuleMatches rule stem intact = true /\
  result = ApplyRule rule stem /\ IsValid result = true.
Proof.
  induction chain as [|r chain IH]; simpl; [discriminate|].
  destruct (RuleMatches r stem intact) eqn:Hm; simpl.
  - destruct (IsValid (ApplyRule r stem)) eqn:Hv; simpl.
    + intros [= <- <-]. rewrite elem_of_cons. auto.
    + intros H. destruct (IH H) as (? & ?). rewrite elem_of_cons. auto.
  - intros H. destruct (IH H) as (? & ?). rewrite elem_of_cons. auto.
Qed.

Lemma scan_rules_None (chain : list rule_t) (stem : cstr) (intact : bool) :
  Forall (fun r => RuleMatches r stem intact = false) chain ->
  scan_rules chain stem intact = None.
Proof.
  induction 1 as [|r chain Hr _ IH]; simpl; [reflexivity|].
  by rewrite Hr.
Qed.

(** C1. In one turn of the loop, the first rule of the bucket that matches
    and whose candidate is valid wins, whatever rules follow it in the
    bucket: the stem becomes the candidate, [intact] becomes false, the
    rule's label goes to the trace, [restem] becomes the rule's continuation
    flag, and the loop is entered again exactly when that flag is set. *)
Theorem first_match_wins (rules : ruleset) (st : stem_state)
    (pre post : list rule_t) (rule : rule_t) :
  let stem := st_stem st in
  let candidate := ApplyRule rule stem in
  let st' := mk_state candidate false (rule_restem rule)
               (st_debug st ++ lit " =" ++ rule_id rule ++ lit "=> " ++ candidate) in
  bucket rules (char_at stem (strlen stem - 1)) = Some (pre ++ rule :: post) ->
  Forall (fun r => RuleMatches r stem (st_intact st) = false \/
                   IsValid (ApplyRule r stem) = false) pre ->
  RuleMatches rule stem (st_intact st) = true ->
  IsValid candidate = true ->
  stem_pass rules st = Some st' /\
  (st_restem st = true ->
   forall fuel,
     stem_loop (S fuel) rules st =
       if rule_restem rule then stem_loop fuel rules st'
       else Stemmed candidate (st_debug st')).
Proof.
  intros stem candidate st' Hb Hpre Hm Hv.
  assert (Hpass : stem_pass rules st = Some st').
  { unfold stem_pass. fold stem. rewrite Hb.
    rewrite (scan_rules_first pre post rule stem _ Hpre Hm Hv).
    fold candidate.
    rewrite (strncpy_short candidate) by apply ApplyRule_length.
    reflexivity. }
  split; [exact Hpass|].
  intros Hre fuel. simpl. rewrite Hre, Hpass.
  destruct (rule_restem rule) eqn:Hr.
  - reflexivity.
  - subst st'. destruct fuel; reflexivity.
Qed.

Lemma first_match_wins_witness :
  let r1 := mk_rule false 2 true (lit "ss") [] (lit "(1:ss2>)") in
  let r2 := mk_rule false 3 false (lit "ies") (lit "y") (lit "(2:sei3y.)") in
  let r3 := mk_rule false 1 true (lit "s") [] (lit "(3:s1>)") in
  let rules := <[18%nat := [r1; r2; r3]]> (replicate 26 []) in
  let st := mk_state (lit "ponies") true true (lit "ponies") in
  stem_pass rules st
    = Some (mk_state (lit "pony") false false (lit "ponies =(2:sei3y.)=> pony")) /\
  stem_loop 1 rules st = Stemmed (lit "pony") (lit "ponies =(2:sei3y.)=> pony").
Proof.
  cbv zeta.
  pose proof (first_match_wins
    (<[18%nat := [mk_rule false 2 true (lit "ss") [] (lit "(1:ss2>)");
                  mk_rule false 3 false (lit "ies") (lit "y") (lit "(2:sei3y.)");
                  mk_rule false 1 true (lit "s") [] (lit "(3:s1>)")]]>
       (replicate 26 []))
    (mk_state (lit "ponies") true true (lit "ponies"))
    [mk_rule false 2 true (lit "ss") [] (lit "(1:ss2>)")]
    [mk_rule false 1 true (lit "s") [] (lit "(3:s1>)")]
    (mk_rule false 3 false (lit "ies") (lit "y") (lit "(2:sei3y.)"))) as H.
  cbv zeta in H.
  destruct H as [Hpass Hloop].
  - reflexivity.
  - repeat constructor.
  - reflexivity.
  - reflexivity.
  - split; [exact Hpass|]. exact (Hloop eq_refl 0%nat).
Defined.

Lemma IsValid_length (stem : cstr) : IsValid stem = true -> (2 <= length stem)%nat.
Proof.
  unfold IsValid, strlen. destruct (is_case_vowel _).
  - apply Nat.leb_le.
  - rewrite andb_true_iff, Nat.leb_le. lia.
Qed.

(** C3 (as amended). [StemWord] works on the first [LONGSTR - 1] characters
    of the word.  When these are not a valid stem they are returned as the
    stem, whatever the rule set, and the trace is empty; for a word of at
    most [LONGSTR - 1] characters that is the word itself. *)
Theorem StemWord_invalid (fuel : nat) (word : cstr) (rules : ruleset) :
  IsValid (strncpy word (LONGSTR - 1)) = false ->
  StemWord fuel word rules = Stemmed (strncpy word (LONGSTR - 1)) [] /\
  ((length word <= LONGSTR - 1)%nat -> strncpy word (LONGSTR - 1) = word).
Proof.
  intros Hv. split; [|apply strncpy_short].
  unfold StemWord. by rewrite Hv.
Qed.

Lemma StemWord_invalid_witness :
  IsValid (strncpy (lit "by") (LONGSTR - 1)) = false /\
  StemWord 0 (lit "by") (replicate 26 []) = Stemmed (lit "by") [].
Proof.
  split; [reflexivity|].
  exact (proj1 (StemWord_invalid 0 (lit "by") (replicate 26 []) eq_refl)).
Defined.

(** C3 fails as stated at a word longer than the stem buffer: the word is
    not valid, and the stem returned is not the word. *)
Lemma StemWord_invalid_long :
  let word := replicate 255 "b"%char in
  IsValid word = false /\
  forall fuel rules debug, StemWord fuel word rules <> Stemmed word debug.
Proof.
  cbv zeta. split; [by vm_compute|].
  intros fuel rules debug H.
  assert (Hv : IsValid (strncpy (replicate 255 "b"%char) (LONGSTR - 1)) = false)
    by (by vm_compute).
  unfold StemWord in H. cbv zeta in H. rewrite Hv in H. simpl negb in H. cbv iota in H.
  injection H as H _. apply (f_equal length) in H. vm_compute in H. discriminate.
Qed.

(** ** Acceptability along the loop *)

Lemma stem_pass_valid (rules : ruleset) (st st' : stem_state) :
  IsValid (st_stem st) = true ->
  stem_pass rules st = Some st' ->
  IsValid (st_stem st') = true.
Proof.
  intros Hv. unfold stem_pass.
  destruct (bucket rules _) as [chain|]; [|discriminate].
  destruct (scan_rules chain _ _) as [[rule result]|] eqn:Hscan.
  - intros Heq. apply (inj Some) in Heq. subst st'. cbn [st_stem].
    apply scan_rules_Some in Hscan as (_ & _ & -> & Hres).
    by rewrite strncpy_short by apply ApplyRule_length.
  - by intros [= <-].
Qed.

Lemma stem_states_valid (rules : ruleset) (n : nat) :
  forall st st',
    IsValid (st_stem st) = true ->
    stem_states n rules st = Some st' ->
    IsValid (st_stem st') = true.
Proof.
  induction n as [|n IH]; simpl; intros st st' Hv.
  - by intros [= <-].
  - destruct (st_restem st); [|discriminate].
    destruct (stem_pass rules st) as [st1|] eqn:Hpass; [|discriminate].
    apply IH. eapply stem_pass_valid; eauto.
Qed.

Lemma stem_loop_valid (rules : ruleset) (fuel : nat) :
  forall st stem debug,
    IsValid (st_stem st) = true ->
    stem_loop fuel rules st = Stemmed stem debug ->
    IsValid stem = true.
Proof.
  induction fuel as [|fuel IH]; simpl; intros st stem debug Hv;
    destruct (st_restem st); try discriminate; try (by intros [= <- _]).
  destruct (stem_pass rules st) as [st1|] eqn:Hpass; [|discriminate].
  apply IH. eapply stem_pass_valid; eauto.
Qed.

(** C10 (as amended). When the first [LONGSTR - 1] characters of the word
    (the word itself, unless it is longer) are a valid stem: a rule's result
    replaces the stem only if it is valid, the stem is valid after every
    turn of the loop, and the stem returned is valid and not empty. *)
Theorem acceptability_invariant (word : cstr) (rules : ruleset) :
  let stem := strncpy word (LONGSTR - 1) in
  IsValid stem = true ->
  (forall chain s intact rule result,
     scan_rules chain s intact = Some (rule, result) -> IsValid result = true) /\
  (forall n st,
     stem_states n rules (mk_state stem true true stem) = Some st ->
     IsValid (st_stem st) = true) /\
  (forall fuel final debug,
     StemWord fuel word rules = Stemmed final debug ->
     IsValid final = true /\ final <> []).
Proof.
  intros stem Hv. split; [|split].
  - intros chain s intact rule result H.
    by apply scan_rules_Some in H as (_ & _ & _ & ?).
  - intros n st. by apply stem_states_valid.
  - intros fuel final debug. unfold StemWord. fold stem. rewrite Hv. simpl.
    intros H. apply stem_loop_valid in H; [|exact Hv].
    split; [exact H|]. apply IsValid_length in H.
    intros ->. simpl in H. lia.
Qed.

Lemma acceptability_invariant_witness :
  IsValid (strncpy (lit "ponies") (LONGSTR - 1)) = true /\
  forall fuel final debug,
    StemWord fuel (lit "ponies") (replicate 26 []) = Stemmed final debug ->
    IsValid final = true /\ final <> [].
Proof.
  split; [reflexivity|].
  exact (proj2 (proj2 (acceptability_invariant (lit "ponies") (replicate 26 [])
                         eq_refl))).
Defined.

(** C10 fails as stated at a valid word whose only vowel lies beyond the
    stem buffer: the stem returned is not valid. *)
Lemma long_word_invalid_stem :
  let word := replicate 254 "b"%char ++ lit "a" in
  IsValid word = true /\
  forall fuel rules,
    StemWord fuel word rules = Stemmed (replicate 254 "b"%char) [] /\
    IsValid (replicate 254 "b"%char) = false.
Proof.
  cbv zeta. split; [by vm_compute|].
  intros fuel rules.
  assert (Hs : strncpy (replicate 254 "b"%char ++ lit "a") (LONGSTR - 1)
               = replicate 254 "b"%char) by (by vm_compute).
  assert (Hv : IsValid (replicate 254 "b"%char) = false) by (by vm_compute).
  split; [|exact Hv].
  unfold StemWord. cbv zeta. rewrite Hs, Hv. reflexivity.
Qed.

(** ** Termination *)

Lemma RuleMatches_suffix_length (rule : rule_t) (stem : cstr) (intact : bool) :
  RuleMatches rule stem intact = true ->
  (length (rule_suffix rule) <= length stem)%nat.
Proof.
  unfold RuleMatches, strlen.
  destruct (negb intact && rule_intact rule); [discriminate|].
  destruct (Nat.ltb_spec (length stem) (length (rule_suffix rule)));
    [discriminate|lia].
Qed.

Lemma ApplyRule_shorter (rule : rule_t) (stem : cstr) (intact : bool) :
  shortening rule -> rule_restem rule = true ->
  RuleMatches rule stem intact = true ->
  (length (ApplyRule rule stem) < length stem)%nat.
Proof.
  intros Hsh Hre Hm. specialize (Hsh Hre).
  apply RuleMatches_suffix_length in Hm.
  rewrite ApplyRule_cut. unfold spec_candidate.
  rewrite !length_take, length_app, !length_take. lia.
Qed.

Lemma ApplyRule_lowercase (rule : rule_t) (stem : cstr) :
  lowercase stem -> lowercase (rule_append rule) ->
  lowercase (ApplyRule rule stem).
Proof.
  intros Hs Ha. rewrite ApplyRule_cut. unfold spec_candidate, lowercase.
  apply Forall_take, Forall_app. split; [|exact Ha].
  by do 2 apply Forall_take.
Qed.

Lemma last_char_elem (stem : cstr) :
  stem <> [] -> char_at stem (strlen stem - 1) ∈ stem.
Proof.
  intros Hne. unfold char_at, strlen. apply list_elem_of_In, nth_In.
  destruct stem; [done|]. simpl. lia.
Qed.

Lemma bucket_lowercase (rules : ruleset) (c : ascii) :
  length rules = 26%nat -> 97 <= char_code c <= 122 ->
  exists chain, bucket rules c = Some chain /\ chain ∈ rules.
Proof.
  intros Hlen Hc. unfold bucket. cbv zeta.
  destruct (Z.leb_spec 0 (char_code c - 97)); [|lia].
  destruct (Z.leb_spec (char_code c - 97) 25); [|lia]. simpl.
  destruct (lookup_lt_is_Some_2 rules (Z.to_nat (char_code c - 97)))
    as [chain Hchain]; [lia|].
  exists chain. split; [exact Hchain|].
  eapply list_elem_of_lookup_2; eauto.
Qed.

Lemma stem_loop_more_fuel (rules : ruleset) (fuel : nat) :
  forall (st : stem_state) (stem debug : cstr) (k : nat),
    stem_loop fuel rules st = Stemmed stem debug ->
    stem_loop (fuel + k) rules st = Stemmed stem debug.
Proof.
  induction fuel as [|fuel IH]; intros st stem debug k; simpl.
  - destruct (st_restem st) eqn:Hre; [discriminate|].
    intros H. destruct k; simpl; by rewrite Hre.
  - destruct (st_restem st); [|done].
    destruct (stem_pass rules st); [apply IH|done].
Qed.

Section WellFormedRules.

Variable rules : ruleset.
Hypothesis rules_26 : length rules = 26%nat.
Hypothesis rules_ok :
  Forall (Forall (fun rule => lowercase (rule_append rule) /\ shortening rule))
         rules.

Lemma rules_ok_elem (chain : list rule_t) (rule : rule_t) :
  chain ∈ rules -> rule ∈ chain ->
  lowercase (rule_append rule) /\ shortening rule.
Proof.
  intros Hc Hr.
  pose proof (proj1 (Forall_forall _ _) rules_ok chain Hc) as Hchain.
  exact (proj1 (Forall_forall _ _) Hchain rule Hr).
Qed.

Lemma stem_bucket (stem : cstr) :
  IsValid stem = true -> lowercase stem ->
  exists chain,
    bucket rules (char_at stem (strlen stem - 1)) = Some chain /\
    chain ∈ rules.
Proof.
  intros Hv Hl. apply bucket_lowercase; [exact rules_26|].
  apply IsValid_length in Hv.
  assert (Hne : stem <> []) by (intros ->; simpl in Hv; lia).
  exact (proj1 (Forall_forall _ _) Hl _ (last_char_elem stem Hne)).
Qed.

Lemma stem_loop_returns (fuel : nat) :
  forall st,
    IsValid (st_stem st) = true -> lowercase (st_stem st) ->
    (length (st_stem st) <= fuel)%nat ->
    exists stem debug, stem_loop fuel rules st = Stemmed stem debug.
Proof.
  induction fuel as [|fuel IH]; intros st Hv Hl Hlen;
    [apply IsValid_length in Hv; lia|].
  simpl. destruct (st_restem st); [|eauto].
  destruct (stem_bucket _ Hv Hl) as (chain & Hb & Hin).
  unfold stem_pass. rewrite Hb.
  destruct (scan_rules chain _ _) as [[rule result]|] eqn:Hscan.
  - apply scan_rules_Some in Hscan as (Hr & Hm & -> & Hres).
    destruct (rules_ok_elem chain rule Hin Hr) as [Happ Hsh].
    rewrite strncpy_short by apply ApplyRule_length.
    destruct (rule_restem rule) eqn:Hre.
    + apply IH; cbn [st_stem].
      * exact Hres.
      * by apply ApplyRule_lowercase.
      * pose proof (ApplyRule_shorter rule _ _ Hsh Hre Hm). lia.
    + destruct fuel; simpl; eauto.
  - destruct fuel; simpl; eauto.
Qed.

(** C5 (as amended). For a word of lowercase letters and a rule set of 26
    buckets whose append strings are lowercase and whose continuing rules
    remove more than they append (and no more than their suffix),
    [StemWord] returns a stem within [length word] turns of its loop, the
    same stem for every greater bound on the turns.  The stem is the word
    (its first [LONGSTR - 1] characters) when that is not valid or when no
    rule of the rule set matches it. *)
Theorem StemWord_returns (word : cstr) :
  lowercase word ->
  exists stem debug,
    (forall fuel, (length word <= fuel)%nat ->
       StemWord fuel word rules = Stemmed stem debug) /\
    (IsValid (strncpy word (LONGSTR - 1)) = false \/
     Forall (Forall (fun rule =>
        RuleMatches rule (strncpy word (LONGSTR - 1)) true = false)) rules ->
     stem = strncpy word (LONGSTR - 1)).
Proof.
  intros Hl. unfold StemWord. cbv zeta.
  set (stem0 := strncpy word (LONGSTR - 1)).
  assert (Hl0 : lowercase stem0) by (by apply Forall_take).
  assert (Hlen0 : (length stem0 <= length word)%nat)
    by (subst stem0; unfold strncpy; rewrite length_take; lia).
  destruct (IsValid stem0) eqn:Hv; simpl.
  - destruct (stem_loop_returns (length word) (mk_state stem0 true true stem0))
      as (stem & debug & Hloop); [done|done|simpl; lia|].
    exists stem, debug. split.
    + intros fuel Hfuel.
      replace fuel with (length word + (fuel - length word))%nat by lia.
      by apply stem_loop_more_fuel.
    + intros [?|Hno]; [discriminate|].
      pose proof (IsValid_length _ Hv) as Hlong.
      destruct (length word) as [|turns]; [lia|].
      simpl in Hloop. unfold stem_pass in Hloop.
      cbn [st_stem st_intact] in Hloop.
      destruct (stem_bucket _ Hv Hl0) as (chain & Hb & Hin).
      rewrite Hb in Hloop.
      rewrite scan_rules_None in Hloop
        by exact (proj1 (Forall_forall _ _) Hno chain Hin).
      destruct turns; simpl in Hloop; by injection Hloop as <- _.
  - exists stem0, []. split; [reflexivity|]. by intros _.
Qed.

End WellFormedRules.

Lemma sample_rules_ok :
  Forall (Forall (fun rule => lowercase (rule_append rule) /\ shortening rule))
         sample_rules.
Proof.
  unfold sample_rules, lowercase, shortening.
  repeat constructor;
    cbn [rule_append rule_restem rule_remove rule_suffix length];
    try discriminate; try (intros _; lia); try (vm_compute; discriminate).
Qed.

Lemma StemWord_returns_witness :
  exists stem debug,
    (forall fuel, (length (lit "ponies") <= fuel)%nat ->
       StemWord fuel (lit "ponies") sample_rules = Stemmed stem debug) /\
    (IsValid (strncpy (lit "ponies") (LONGSTR - 1)) = false \/
     Forall (Forall (fun rule =>
        RuleMatches rule (strncpy (lit "ponies") (LONGSTR - 1)) true = false))
       sample_rules ->
     stem = strncpy (lit "ponies") (LONGSTR - 1)).
Proof.
  apply (StemWord_returns sample_rules eq_refl sample_rules_ok).
  unfold lowercase, lit. simpl.
  repeat constructor; vm_compute; discriminate.
Defined.

(** C5 fails as stated for some compiled rule sets.  With the continuing
    rule [a>], which removes and appends nothing, the loop never ends on
    "banana" (the trace, when one is asked for, grows at every turn); with
    the rule [s1X>], whose append string is an upper-case letter, the next
    turn indexes [rules] outside its 26 entries. *)
Lemma StemWord_not_total :
  (exists rules,
     LoadRules (lit "a>" ++ newline :: lit "end0.") = Loaded rules /\
     forall fuel, StemWord fuel (lit "banana") rules = Unfinished) /\
  (exists rules,
     LoadRules (lit "s1X>" ++ newline :: lit "end0.") = Loaded rules /\
     forall fuel, StemWord (S (S fuel)) (lit "cats") rules = BadIndex).
Proof.
  split.
  - eexists. split; [by vm_compute|].
    intros fuel. unfold StemWord. cbv zeta.
    change (strncpy (lit "banana") (LONGSTR - 1)) with (lit "banana").
    change (negb (IsValid (lit "banana"))) with false. cbv iota.
    match goal with
    | |- stem_loop _ ?r (mk_state ?w _ _ _) = _ =>
        assert (Hloop : forall n intact debug,
                  stem_loop n r (mk_state w intact true debug) = Unfinished)
    end.
    { induction n as [|n IH]; intros intact debug; [reflexivity|].
      simpl stem_loop.
      match goal with
      | |- context [stem_pass ?r ?st] =>
          assert (Hpass : exists debug',
                    stem_pass r st = Some (mk_state (lit "banana") false true debug'))
            by (destruct intact; eexists; by vm_compute)
      end.
      destruct Hpass as [debug' ->]. apply IH. }
    apply Hloop.
  - eexists. split; [by vm_compute|].
    intros fuel. reflexivity.
Qed.

(** ** ReverseString *)

Lemma char_at_lookup (s : cstr) (i : nat) (c : ascii) :
  s !! i = Some c -> char_at s i = c.
Proof. apply nth_lookup_Some. Qed.

Lemma reverse_loop_lookup (orig : cstr) (todo : nat) :
  forall (k : nat) (str : cstr),
    (2 * (k + todo) <= length orig)%nat ->
    length str = length orig ->
    (forall j, (j < length orig)%nat ->
       str !! j = orig !! (if decide (j < k \/ length orig - 1 - k < j)%nat
                           then length orig - 1 - j else j)%nat) ->
    let res := reverse_loop todo (Z.of_nat k) (Z.of_nat (length orig) - 1) str in
    length res = length orig /\
    forall j, (j < length orig)%nat ->
      res !! j = orig !! (if decide (j < k + todo \/
                                     length orig - 1 - (k + todo) < j)%nat
                          then length orig - 1 - j else j)%nat.
Proof.
  induction todo as [|todo IH]; intros k str Hk Hlen Hstr; cbv zeta.
  - simpl. rewrite Nat.add_0_r. auto.
  - cbn [reverse_loop].
    set (n := length orig) in *.
    replace (Z.to_nat (Z.of_nat n - 1 - Z.of_nat k)) with (n - 1 - k)%nat by lia.
    rewrite Nat2Z.id.
    replace (Z.of_nat k + 1) with (Z.of_nat (S k)) by lia.
    replace (k + S todo)%nat with (S k + todo)%nat by lia.
    destruct (lookup_lt_is_Some_2 orig k) as [x Hx]; [lia|].
    destruct (lookup_lt_is_Some_2 orig (n - 1 - k)) as [y Hy]; [lia|].
    assert (Hsk : str !! k = Some x).
    { rewrite Hstr by lia. destruct (decide _); [lia|done]. }
    assert (Hsa : str !! (n - 1 - k)%nat = Some y).
    { rewrite Hstr by lia. destruct (decide _); [lia|done]. }
    rewrite (char_at_lookup _ _ _ Hsk), (char_at_lookup _ _ _ Hsa).
    apply IH; [lia|by rewrite !length_insert|].
    intros j Hj. rewrite !list_lookup_insert, !length_insert.
    destruct (decide (k = j /\ _)) as [[-> _]|Hnk].
    { destruct (decide _); [|lia].
      by replace (n - 1 - j)%nat with (n - 1 - j)%nat by lia. }
    destruct (decide ((n - 1 - k)%nat = j /\ _)) as [[<- _]|Hna].
    { destruct (decide _); [|lia].
      by replace (n - 1 - (n - 1 - k))%nat with k by lia. }
    rewrite Hstr by lia.
    destruct (decide (j < k \/ _)%nat), (decide (j < S k \/ _)%nat);
      try done; lia.
Qed.

Lemma ReverseString_rev (str : cstr) : ReverseString str = rev str.
Proof.
  unfold ReverseString, strlen. rewrite rev_alt. fold (reverse str).
  assert (Hh : exists h, Z.to_nat (Z.quot (Z.of_nat (length str) - 1 + 1) 2) = h /\
                         (2 * h <= length str <= 2 * h + 1)%nat).
  { eexists. split; [reflexivity|].
    rewrite Z.quot_div_nonneg by lia.
    replace (Z.of_nat (length str) - 1 + 1) with (Z.of_nat (length str)) by lia.
    pose proof (Z.div_mod (Z.of_nat (length str)) 2 ltac:(lia)).
    pose proof (Z.mod_pos_bound (Z.of_nat (length str)) 2 ltac:(lia)).
    lia. }
  destruct Hh as (h & -> & Hh).
  destruct (reverse_loop_lookup str h 0%nat str) as [Hlen Hres];
    [lia|done| |].
  { intros j Hj. destruct (decide _); [lia|done]. }
  change (Z.of_nat 0) with 0 in *.
  apply list_eq. intros j.
  destruct (decide (j < length str)%nat) as [Hj|Hj].
  - rewrite Hres by done. rewrite reverse_lookup by done.
    destruct (decide _); f_equal; lia.
  - rewrite (lookup_ge_None_2 (reverse_loop _ _ _ _)) by lia.
    rewrite lookup_ge_None_2 by (rewrite length_reverse; lia).
    reflexivity.
Qed.

(** ** Reading runs of characters *)

Lemma read_run_split (p : Z -> bool) (inp : input) :
  inp = (read_run p inp).1 ++ (read_run p inp).2.
Proof.
  induction inp as [|c rest IH]; simpl; [reflexivity|].
  destruct (p (char_code c)); [|reflexivity].
  destruct (read_run p rest) as [run inp'] eqn:Hr. simpl in *. by f_equal.
Qed.

Lemma read_run_Forall (p : Z -> bool) (inp : input) :
  Forall (fun c => p (char_code c) = true) (read_run p inp).1.
Proof.
  induction inp as [|c rest IH]; simpl; [constructor|].
  destruct (p (char_code c)) eqn:Hc; [|constructor].
  destruct (read_run p rest) as [run inp'] eqn:Hr. simpl in *. by constructor.
Qed.

Lemma read_run_length (p : Z -> bool) (inp : input) :
  (length (read_run p inp).2 <= length inp)%nat.
Proof.
  rewrite (read_run_split p inp) at 2. rewrite length_app. lia.
Qed.

Lemma read_run_exact (p : Z -> bool) (run rest : cstr) :
  Forall (fun c => p (char_code c) = true) run ->
  p (file_ch rest) = false ->
  read_run p (run ++ rest) = (run, rest).
Proof.
  intros Hrun Hrest. induction Hrun as [|c run Hc _ IH]; simpl.
  - destruct rest as [|c rest]; [reflexivity|]. simpl in *. by rewrite Hrest.
  - by rewrite Hc, IH.
Qed.

Lemma skip_line_length (inp inp' : input) :
  skip_line inp = Some inp' ->
  (length inp' <= length inp)%nat /\ inp' <> [].
Proof.
  induction inp as [|c rest IH]; simpl; [discriminate|].
  destruct (negb (char_code c =? 0) && negb (char_code c =? 10)).
  - intros H. destruct (IH H). split; [lia|done].
  - intros [= <-]. split; [simpl; lia|done].
Qed.

Lemma fgetc_length (inp : input) :
  inp <> [] -> (length (fgetc inp) < length inp)%nat.
Proof. destruct inp; [done|]. simpl. lia. Qed.

(** ** One rule of the file *)

(** What [read_entry] has done when it hands over a rule. *)
Lemma read_entry_ERule (line : Z) (inp : input)
    (rule_idx : Z) (rule : rule_t) (inp' : input) :
  read_entry line inp = ERule rule_idx rule inp' ->
  rule_idx = file_ch inp - 97 /\ 0 <= rule_idx <= 25 /\
  rule_suffix rule = ReverseString (read_run isalpha inp).1 /\
  (length inp' <= length inp)%nat /\
  (file_ch inp' = 62 \/ file_ch inp' = 46).
Proof.
  unfold read_entry. cbv zeta.
  destruct (Z.ltb_spec (file_ch inp - 97) 0); [discriminate|].
  destruct (Z.ltb_spec 25 (file_ch inp - 97)); [discriminate|]. simpl orb. cbv iota.
  pose proof (read_run_length isalpha inp) as Hl1.
  destruct (read_run isalpha inp) as [suffix inp1]. simpl in Hl1.
  set (star := if file_ch inp1 =? 42 then _ else _).
  assert (Hl2 : (length star.2 <= length inp1)%nat).
  { subst star. destruct (file_ch inp1 =? 42); simpl; [|lia].
    destruct inp1; simpl; lia. }
  destruct star as [[intact id] inp2]. simpl in Hl2.
  pose proof (read_run_length isdigit inp2) as Hl3.
  destruct (read_run isdigit inp2) as [tmp_str inp3]. simpl in Hl3.
  pose proof (read_run_length isalpha inp3) as Hl4.
  destruct (read_run isalpha inp3) as [append inp4]. simpl in Hl4.
  destruct (Z.eqb_spec (file_ch inp4) 62) as [H62|H62].
  - destruct (strstr _ _); [discriminate|].
    intros [= <- <- <-]. simpl. repeat split; auto; lia.
  - destruct (Z.eqb_spec (file_ch inp4) 46) as [H46|H46]; [|discriminate].
    simpl negb. cbv iota.
    destruct (strstr _ _); [discriminate|].
    intros [= <- <- <-]. simpl. repeat split; auto; lia.
Qed.

(** ** The main loop of LoadRules *)

Lemma isspace_file_ch_nonempty (inp : input) :
  isspace (file_ch inp) = true -> inp <> [].
Proof. by destruct inp. Qed.

(** Any fuel above the length of the input gives the same result. *)
Lemma load_loop_fuel (fuel : nat) :
  forall (n : nat) (rules : ruleset) (line : Z) (inp : input),
    (length inp < fuel)%nat -> (length inp < n)%nat ->
    load_loop fuel rules line inp = load_loop n rules line inp.
Proof.
  induction fuel as [|fuel IH]; intros n rules line inp Hf Hn; [lia|].
  destruct n as [|n]; [lia|]. simpl.
  destruct (file_ch inp =? 0); [reflexivity|].
  destruct (isspace (file_ch inp)) eqn:Hsp.
  - apply isspace_file_ch_nonempty, fgetc_length in Hsp. apply IH; lia.
  - destruct (read_entry (line + 1) inp) as [| |rule_idx rule inp'] eqn:He;
      try reflexivity.
    apply read_entry_ERule in He as (_ & _ & _ & Hl & _).
    destruct (skip_line inp') as [inp''|] eqn:Hs; [|reflexivity].
    apply skip_line_length in Hs as [Hl' Hne]. apply fgetc_length in Hne.
    apply IH; lia.
Qed.

Lemma load_loop_enough (fuel : nat) :
  forall (rules : ruleset) (line : Z) (inp : input),
    (length inp < fuel)%nat -> load_loop fuel rules line inp <> OutOfFuel.
Proof.
  induction fuel as [|fuel IH]; intros rules line inp Hf; [lia|]. simpl.
  destruct (file_ch inp =? 0); [discriminate|].
  destruct (isspace (file_ch inp)) eqn:Hsp.
  - apply isspace_file_ch_nonempty, fgetc_length in Hsp. apply IH; lia.
  - destruct (read_entry (line + 1) inp) as [| |rule_idx rule inp'] eqn:He;
      try discriminate.
    apply read_entry_ERule in He as (_ & _ & _ & Hl & _).
    destruct (skip_line inp') as [inp''|] eqn:Hs; [|discriminate].
    apply skip_line_length in Hs as [Hl' Hne]. apply fgetc_length in Hne.
    apply IH; lia.
Qed.

Lemma LoadRules_fuel (file : list ascii) : LoadRules file <> OutOfFuel.
Proof. apply load_loop_enough. lia. Qed.

(** [LoadRules] returns what the main loop returns from any point it
    comes to. *)
Lemma loop_at_LoadRules (file : list ascii) (rules : ruleset) (line : Z)
    (inp : input) :
  loop_at file rules line inp ->
  forall fuel, (length inp < fuel)%nat ->
    LoadRules file = load_loop fuel rules line inp.
Proof.
  induction 1 as [|rules line inp _ IH Hnz Hsp
                  |rules line inp rule_idx rule inp' inp'' _ IH Hnz Hsp He Hs];
    intros fuel Hf.
  - apply load_loop_fuel; lia.
  - pose proof (fgetc_length inp (isspace_file_ch_nonempty _ Hsp)).
    rewrite (IH (S (length inp + fuel))) by lia. simpl.
    apply Z.eqb_neq in Hnz. rewrite Hnz, Hsp.
    apply load_loop_fuel; lia.
  - pose proof He as He'.
    apply read_entry_ERule in He' as (_ & _ & _ & Hl & _).
    pose proof Hs as Hs'.
    apply skip_line_length in Hs' as [Hl' Hne]. apply fgetc_length in Hne.
    rewrite (IH (S (length inp + fuel))) by lia. simpl.
    apply Z.eqb_neq in Hnz. rewrite Hnz, Hsp, He, Hs.
    apply load_loop_fuel; lia.
Qed.

(** ** Entries that follow the grammar *)

Lemma file_ch_app (l r : cstr) : l <> [] -> file_ch (l ++ r) = file_ch l.
Proof. by destruct l. Qed.

Lemma isalpha_not_isdigit (v : Z) : isalpha v = true -> isdigit v = false.
Proof.
  unfold isalpha, isdigit.
  rewrite orb_true_iff, !andb_true_iff, andb_false_iff, !Z.leb_le, !Z.leb_gt. lia.
Qed.

Lemma isdigit_not_isalpha (v : Z) : isdigit v = true -> isalpha v = false.
Proof.
  intros H. destruct (isalpha v) eqn:Ha; [|reflexivity].
  apply isalpha_not_isdigit in Ha. congruence.
Qed.

Lemma isdigit_not_star (v : Z) : isdigit v = true -> (v =? 42) = false.
Proof.
  unfold isdigit. rewrite !andb_true_iff, !Z.leb_le, Z.eqb_neq. lia.
Qed.

(** [read_entry] on an entry written as the grammar says: letters, an
    optional [*], digits, letters (none unless a [*] or a digit comes
    before), and [>] or [.]. *)
Lemma read_entry_grammar (line : Z) (raw flag digits apd : cstr)
    (term : ascii) (tail : input) :
  97 <= file_ch raw <= 122 ->
  Forall (fun c => isalpha (char_code c) = true) raw ->
  flag = [] \/ flag = lit "*" ->
  Forall (fun c => isdigit (char_code c) = true) digits ->
  Forall (fun c => isalpha (char_code c) = true) apd ->
  (flag = [] -> digits = [] -> apd = []) ->
  term = ">"%char \/ term = "."%char ->
  read_entry line (raw ++ flag ++ digits ++ apd ++ term :: tail) =
    let id := sprintf_id line ++ raw ++ flag ++ digits ++ apd ++ [term] ++ lit ")" in
    if strstr id (lit ":end0.)") then EStop
    else ERule (file_ch raw - 97)
           (mk_rule (bool_decide (flag = lit "*"))
                    (if digits is [] then 0 else atoi digits)
                    (bool_decide (term = ">"%char))
                    (rev raw) apd id)
           (term :: tail).
Proof.
  intros Hc Hraw Hflag Hdig Hapd Hamb Hterm.
  assert (Hne : raw <> []) by (intros ->; simpl in Hc; lia).
  assert (Ht : isalpha (char_code term) = false /\
               isdigit (char_code term) = false /\
               (char_code term =? 42) = false)
    by (destruct Hterm as [-> | ->]; by vm_compute).
  destruct Ht as (Hta & Htd & Hts).
  (* what follows the append letters, the digits, the flag *)
  assert (Ha3 : isalpha (file_ch (term :: tail)) = false) by exact Hta.
  assert (Hd2 : isdigit (file_ch (apd ++ term :: tail)) = false).
  { destruct apd as [|a apd]; [exact Htd|].
    apply isalpha_not_isdigit. by inversion Hapd. }
  assert (Hs2 : flag = [] -> digits = [] ->
                (file_ch (apd ++ term :: tail) =? 42) = false).
  { intros Hf Hd. rewrite (Hamb Hf Hd). exact Hts. }
  assert (Ha2 : flag = [] -> digits = [] ->
                isalpha (file_ch (apd ++ term :: tail)) = false).
  { intros Hf Hd. rewrite (Hamb Hf Hd). exact Hta. }
  assert (Ha1 : isalpha (file_ch (flag ++ digits ++ apd ++ term :: tail)) = false).
  { destruct Hflag as [-> | ->]; [|reflexivity]. simpl app.
    destruct digits as [|d digits]; [by apply Ha2|].
    apply isdigit_not_isalpha. by inversion Hdig. }
  unfold read_entry. cbv zeta.
  rewrite file_ch_app by exact Hne.
  destruct (Z.ltb_spec (file_ch raw - 97) 0); [lia|].
  destruct (Z.ltb_spec 25 (file_ch raw - 97)); [lia|]. simpl orb. cbv iota.
  rewrite (read_run_exact isalpha raw) by assumption.
  rewrite ReverseString_rev.
  assert (Hstar :
    (if file_ch (flag ++ digits ++ apd ++ term :: tail) =? 42
     then (true, sprintf_id line ++ raw ++ lit "*",
           fgetc (flag ++ digits ++ apd ++ term :: tail))
     else (false, sprintf_id line ++ raw,
           flag ++ digits ++ apd ++ term :: tail))
    = (bool_decide (flag = lit "*"), sprintf_id line ++ raw ++ flag,
       digits ++ apd ++ term :: tail)).
  { destruct Hflag as [-> | ->].
    - simpl app. rewrite app_nil_r.
      destruct digits as [|d digits]; simpl app.
      + by rewrite Hs2.
      + cbn [file_ch]. rewrite isdigit_not_star; [done|]. by inversion Hdig.
    - reflexivity. }
  rewrite <- !app_assoc in *. rewrite Hstar.
  rewrite (read_run_exact isdigit digits) by assumption.
  rewrite (read_run_exact isalpha apd) by assumption.
  assert (Hrem : (if (strlen digits =? 0)%nat then 0 else atoi digits)
                 = (if digits is [] then 0 else atoi digits))
    by (by destruct digits).
  rewrite Hrem. rewrite <- !app_assoc.
  destruct Hterm as [-> | ->]; reflexivity.
Qed.

(** ** The pseudo-rule *)

Lemma strstr_app (pre needle post : cstr) :
  strstr (pre ++ needle ++ post) needle = true.
Proof.
  induction pre as [|c pre IH]; simpl.
  - assert (needle `prefix_of` needle ++ post) as Hp by (by exists post).
    destruct (needle ++ post); simpl; by rewrite bool_decide_eq_true_2.
  - rewrite IH. by destruct (bool_decide _).
Qed.

Lemma read_run_none (p : Z -> bool) (inp : input) :
  p (file_ch inp) = false -> read_run p inp = ([], inp).
Proof. intros H. exact (read_run_exact p [] inp (Forall_nil_2 _) H). Qed.

Lemma read_entry_end0 (line : Z) (rest : input) :
  read_entry line (lit "end0." ++ rest) = EStop.
Proof.
  unfold read_entry. cbv zeta.
  change (lit "end0." ++ rest) with (lit "end" ++ lit "0" ++ lit "." ++ rest).
  change ((file_ch (lit "end" ++ lit "0" ++ lit "." ++ rest) - 97 <? 0)
          || (25 <? file_ch (lit "end" ++ lit "0" ++ lit "." ++ rest) - 97))
    with false. cbv iota.
  rewrite (read_run_exact isalpha (lit "end")) by (repeat constructor).
  change (file_ch (lit "0" ++ lit "." ++ rest) =? 42) with false. cbv iota.
  rewrite (read_run_exact isdigit (lit "0")) by (repeat constructor).
  rewrite (read_run_none isalpha (lit "." ++ rest)) by reflexivity.
  change (file_ch (lit "." ++ rest) =? 62) with false.
  change (file_ch (lit "." ++ rest) =? 46) with true.
  simpl negb. cbv iota.
  unfold sprintf_id. rewrite <- !app_assoc.
  change (lit ":" ++ lit "end" ++ lit "0" ++ [] ++ lit "." ++ lit ")")
    with (lit ":end0.)" ++ []).
  rewrite (app_assoc (lit "(")).
  by rewrite strstr_app.
Qed.

(** ** Only [end0.] is the pseudo-rule *)

Lemma char_code_inj (a b : ascii) : char_code a = char_code b -> a = b.
Proof.
  unfold char_code. intros H.
  pose proof (N_ascii_bounded a). pose proof (N_ascii_bounded b).
  rewrite <- (ascii_N_embedding a), <- (ascii_N_embedding b). f_equal.
  destruct (Z.leb_spec 128 (Z.of_N (N_of_ascii a)));
    destruct (Z.leb_spec 128 (Z.of_N (N_of_ascii b))); lia.
Qed.

Lemma file_ch_head (inp : input) (c : ascii) :
  file_ch inp = char_code c -> 0 <= char_code c ->
  exists rest, inp = c :: rest.
Proof.
  destruct inp as [|c' rest]; simpl; [lia|].
  intros H _. apply char_code_inj in H as ->. by exists rest.
Qed.

Lemma strstr_inv (hay needle : cstr) :
  strstr hay needle = true -> exists pre post, hay = pre ++ needle ++ post.
Proof.
  induction hay as [|c hay IH]; simpl.
  - destruct (bool_decide _) eqn:Hp; [|discriminate].
    apply bool_decide_eq_true_1 in Hp as [post ->]. by exists [], post.
  - destruct (bool_decide _) eqn:Hp.
    + apply bool_decide_eq_true_1 in Hp as [post ->]. by exists [], post.
    + intros H. destruct (IH H) as (pre & post & ->). by exists (c :: pre), post.
Qed.

(** A character that occurs once in a string splits it in one way only. *)
Lemma unique_split (c : ascii) (l1 : cstr) :
  forall l2 r1 r2 : cstr,
    l1 ++ c :: r1 = l2 ++ c :: r2 -> c ∉ l1 -> c ∉ r1 ->
    l2 = l1 /\ r2 = r1.
Proof.
  induction l1 as [|a l1 IH]; intros l2 r1 r2 Heq Hl Hr; simpl in Heq.
  - destruct l2 as [|b l2]; simpl in Heq.
    + by injection Heq as <-.
    + injection Heq as <- ->. exfalso. apply Hr.
      rewrite elem_of_app, elem_of_cons. auto.
  - destruct l2 as [|b l2]; simpl in Heq.
    + injection Heq as -> _. exfalso. apply Hl. by left.
    + injection Heq as <- Heq.
      destruct (IH l2 r1 r2 Heq) as [-> ->]; [|done|done].
      intros ?. apply Hl. by right.
Qed.

Lemma uint_no_colon (d : Decimal.uint) :
  ":"%char ∉ lit (NilEmpty.string_of_uint d).
Proof.
  unfold lit. induction d; simpl; rewrite ?elem_of_cons;
    [apply not_elem_of_nil|..]; intros [?|?]; done.
Qed.

Lemma sprintf_id_colon (line : Z) :
  exists pre, sprintf_id line = pre ++ [":"%char] /\ ":"%char ∉ pre.
Proof.
  unfold sprintf_id. eexists. rewrite app_assoc. split; [reflexivity|].
  assert (Hu : forall d, ":"%char ∉ lit (NilZero.string_of_uint d)).
  { intros d. pose proof (uint_no_colon d).
    destruct d; try done. unfold lit. simpl.
    rewrite elem_of_cons, elem_of_nil. intros [?|?]; done. }
  unfold lit at 1. simpl. rewrite elem_of_cons. intros [?|Hin]; [done|].
  revert Hin. unfold NilZero.string_of_int.
  destruct (Z.to_int line) as [d|d]; [apply Hu|].
  unfold lit. simpl. rewrite elem_of_cons. intros [?|Hin]; [done|].
  by apply (Hu d).
Qed.

(** A label that holds [:end0.)] is the label of the text [end0.]. *)
Lemma label_end0 (line : Z) (body : cstr) :
  Forall (fun c => char_code c <> 58 /\ char_code c <> 41) body ->
  strstr (sprintf_id line ++ body ++ lit ")") (lit ":end0.)") = true ->
  body = lit "end0.".
Proof.
  intros Hbody Hs.
  assert (Hcolon : (":"%char ∉ body) /\ (")"%char ∉ body)).
  { split; intros Hin;
      apply (proj1 (Forall_forall _ _) Hbody) in Hin as [? ?]; done. }
  destruct Hcolon as [Hc Hp].
  apply strstr_inv in Hs as (pre & post & Heq).
  destruct (sprintf_id_colon line) as (pre0 & Hid & Hpre0). rewrite Hid in Heq.
  rewrite <- app_assoc in Heq.
  apply (unique_split ":" pre0 pre (body ++ lit ")") (lit "end0.)" ++ post))
    in Heq as [_ Heq]; [|done|].
  - symmetry in Heq.
    apply (unique_split ")" body (lit "end0.") [] post) in Heq as [Heq _];
      [done|done|apply not_elem_of_nil].
  - rewrite elem_of_app. intros [?|Hin]; [done|].
    revert Hin. unfold lit. simpl. rewrite elem_of_cons, elem_of_nil.
    intros [?|?]; done.
Qed.

Lemma isalpha_label (c : ascii) :
  isalpha (char_code c) = true -> char_code c <> 58 /\ char_code c <> 41.
Proof.
  unfold isalpha. rewrite orb_true_iff, !andb_true_iff, !Z.leb_le. lia.
Qed.

Lemma isdigit_label (c : ascii) :
  isdigit (char_code c) = true -> char_code c <> 58 /\ char_code c <> 41.
Proof. unfold isdigit. rewrite !andb_true_iff, !Z.leb_le. lia. Qed.

(** The text that [read_entry] has read when it ends the rules. *)
Lemma read_entry_EStop (line : Z) (inp : input) :
  read_entry line inp = EStop -> exists rest, inp = lit "end0." ++ rest.
Proof.
  unfold read_entry. cbv zeta.
  destruct ((file_ch inp - 97 <? 0) || (25 <? file_ch inp - 97));
    [discriminate|].
  pose proof (read_run_split isalpha inp) as Hs1.
  pose proof (read_run_Forall isalpha inp) as Hf1.
  destruct (read_run isalpha inp) as [suffix inp1]. simpl in Hs1, Hf1.
  set (star := if file_ch inp1 =? 42 then _ else _).
  assert (Hstar : exists flag inp2,
            star = (bool_decide (flag <> []),
                    (sprintf_id line ++ suffix) ++ flag, inp2) /\
            inp1 = flag ++ inp2 /\
            Forall (fun c => char_code c <> 58 /\ char_code c <> 41) flag).
  { subst star. destruct (Z.eqb_spec (file_ch inp1) 42) as [H42|H42].
    - destruct (file_ch_head inp1 "*" H42) as [inp2 ->]; [done|].
      exists (lit "*"), inp2. repeat split. by repeat constructor.
    - exists [], inp1. rewrite app_nil_r. repeat split. constructor. }
  destruct Hstar as (flag & inp2 & -> & Hs2 & Hf2).
  pose proof (read_run_split isdigit inp2) as Hs3.
  pose proof (read_run_Forall isdigit inp2) as Hf3.
  destruct (read_run isdigit inp2) as [tmp_str inp3]. simpl in Hs3, Hf3.
  pose proof (read_run_split isalpha inp3) as Hs4.
  pose proof (read_run_Forall isalpha inp3) as Hf4.
  destruct (read_run isalpha inp3) as [append inp4]. simpl in Hs4, Hf4.
  assert (Hbody : forall term : ascii,
            0 <= char_code term -> char_code term <> 58 -> char_code term <> 41 ->
            file_ch inp4 = char_code term ->
            strstr (((((sprintf_id line ++ suffix) ++ flag) ++ tmp_str) ++ append)
                    ++ [term] ++ lit ")") (lit ":end0.)") = true ->
            exists rest, inp = lit "end0." ++ rest).
  { intros term Hpos H58 H41 Hterm Hstr.
    destruct (file_ch_head inp4 term Hterm Hpos) as [rest ->].
    exists rest.
    rewrite <- (label_end0 line (suffix ++ flag ++ tmp_str ++ append ++ [term])).
    - rewrite Hs1, Hs2, Hs3, Hs4. rewrite <- !app_assoc. reflexivity.
    - rewrite !Forall_app. repeat split.
      + eapply Forall_impl; [exact Hf1|]. intros c. apply isalpha_label.
      + exact Hf2.
      + eapply Forall_impl; [exact Hf3|]. intros c. apply isdigit_label.
      + eapply Forall_impl; [exact Hf4|]. intros c. apply isalpha_label.
      + by repeat constructor.
    - rewrite <- !app_assoc in Hstr. rewrite <- !app_assoc. exact Hstr. }
  destruct (Z.eqb_spec (file_ch inp4) 62) as [H62|H62].
  - destruct (strstr _ _) eqn:Hstr; [|discriminate]. intros _.
    apply (Hbody ">"%char);
      [by vm_compute|by vm_compute|by vm_compute|exact H62|exact Hstr].
  - destruct (Z.eqb_spec (file_ch inp4) 46) as [H46|H46]; [|discriminate].
    simpl negb. cbv iota.
    destruct (strstr _ _) eqn:Hstr; [|discriminate]. intros _.
    apply (Hbody "."%char);
      [by vm_compute|by vm_compute|by vm_compute|exact H46|exact Hstr].
Qed.

(** C6 (as amended). When the main loop comes upon the entry [end0.]
    (suffix letters [end], remove count [0], no append string, terminator
    [.]), on whatever line, [LoadRules] returns the rules stored so far,
    whatever follows in the file.  The entry is read by the general parser
    like any other and recognised afterwards in the label assembled for
    it; no other entry is taken for the pseudo-rule. *)
Theorem pseudo_rule_stops (file : list ascii) (rules : ruleset) (line : Z)
    (rest : input) :
  loop_at file rules line (lit "end0." ++ rest) ->
  LoadRules file = Loaded rules /\
  (forall line' inp,
     read_entry line' inp = EStop <-> exists rest', inp = lit "end0." ++ rest').
Proof.
  intros Hat. split.
  - rewrite (loop_at_LoadRules _ _ _ _ Hat (S (length (lit "end0." ++ rest))))
      by lia.
    cbn [load_loop].
    change (file_ch (lit "end0." ++ rest) =? 0) with false.
    change (isspace (file_ch (lit "end0." ++ rest))) with false. cbv iota.
    by rewrite read_entry_end0.
  - intros line' inp. split; [apply read_entry_EStop|].
    intros [rest' ->]. apply read_entry_end0.
Qed.

Lemma sample_file_loop :
  loop_at (sample_file ++ lit "not a rule")
          sample_rules 3 (lit "end0." ++ newline :: lit "not a rule").
Proof.
  set (file := sample_file ++ lit "not a rule").
  set (r1 := mk_rule false 3 true (lit "ies") (lit "y") (lit "(1:sei3y>)")).
  set (r2 := mk_rule false 3 true (lit "ing") [] (lit "(2:gni3>)")).
  set (r3 := mk_rule false 1 false (lit "y") (lit "i") (lit "(3:y1i.)")).
  set (T1 := add_rule (replicate 26 []) 18 r1).
  set (T2 := add_rule T1 6 r2).
  set (T3 := add_rule T2 24 r3).
  set (tail3 := newline :: lit "end0." ++ newline :: lit "not a rule").
  set (tail2 := newline :: lit "y1i." ++ tail3).
  set (tail1 := newline :: lit "gni3>" ++ tail2).
  assert (H1 : loop_at file T1 (0 + 1) (fgetc tail1)).
  { apply (loop_rule file _ 0 file 18 r1 (lit ">" ++ tail1));
      [constructor|done|done| |]; by vm_compute. }
  assert (H2 : loop_at file T2 (0 + 1 + 1) (fgetc tail2)).
  { apply (loop_rule file _ _ _ 6 r2 (lit ">" ++ tail2) _ H1);
      [done|done| |]; by vm_compute. }
  assert (H3 : loop_at file T3 (0 + 1 + 1 + 1) (fgetc tail3)).
  { apply (loop_rule file _ _ _ 24 r3 (lit "." ++ tail3) _ H2);
      [done|done| |]; by vm_compute. }
  exact H3.
Qed.

Lemma pseudo_rule_stops_witness :
  loop_at (sample_file ++ lit "not a rule")
          sample_rules 3 (lit "end0." ++ newline :: lit "not a rule") /\
  LoadRules (sample_file ++ lit "not a rule") = Loaded sample_rules.
Proof.
  split; [exact sample_file_loop|].
  exact (proj1 (pseudo_rule_stops _ _ _ _ sample_file_loop)).
Defined.

(** C6 fails as stated: an entry with an empty suffix, remove count 0 and
    terminator [.] is no pseudo-rule, it makes [LoadRules] fail; and the
    suffix letters of the pseudo-rule are not empty. *)
Lemma empty_suffix_is_invalid :
  (read_run isalpha (lit "0.")).1 = [] /\
  atoi (read_run isdigit (lit "0.")).1 = 0 /\
  entry_terminator (lit "0.") = 46 /\
  LoadRules (lit "sei3y>" ++ newline :: lit "0." ++ [newline]) = Invalid /\
  (read_run isalpha (lit "end0.")).1 = lit "end".
Proof. repeat split; by vm_compute. Qed.

(** ** Malformed entries *)

Lemma read_entry_invalid (line : Z) (inp : input) :
  file_ch inp < 97 \/ 122 < file_ch inp \/
  (entry_terminator inp <> 62 /\ entry_terminator inp <> 46) ->
  read_entry line inp = EInvalid.
Proof.
  unfold read_entry, entry_terminator. cbv zeta. intros Hbad.
  destruct (Z.ltb_spec (file_ch inp - 97) 0); [reflexivity|].
  destruct (Z.ltb_spec 25 (file_ch inp - 97)); [reflexivity|].
  simpl orb. cbv iota.
  destruct Hbad as [Hbad|[Hbad|[H62 H46]]]; [lia|lia|].
  destruct (read_run isalpha inp) as [suffix inp1].
  destruct (file_ch inp1 =? 42);
    destruct (read_run isdigit _) as [tmp_str inp3];
    destruct (read_run isalpha inp3) as [append inp4];
    apply Z.eqb_neq in H62, H46; by rewrite H62, H46.
Qed.

(** C7 (as amended). Wherever the main loop comes to read an entry, at a
    character that is not whitespace: if the first character is outside
    a-z, or the character at the place of the terminator is neither [>] nor
    [.], then [LoadRules] returns NULL, with no rule table at all, unless
    the first character is NUL; a NUL there is taken for the end of the
    rules, and the table built so far is returned. *)
Theorem invalid_entry_fails (file : list ascii) (rules : ruleset) (line : Z)
    (inp : input) :
  loop_at file rules line inp ->
  isspace (file_ch inp) = false ->
  file_ch inp < 97 \/ 122 < file_ch inp \/
  (entry_terminator inp <> 62 /\ entry_terminator inp <> 46) ->
  LoadRules file = if file_ch inp =? 0 then Loaded rules else Invalid.
Proof.
  intros Hat Hsp Hbad.
  rewrite (loop_at_LoadRules _ _ _ _ Hat (S (length inp))) by lia.
  cbn [load_loop]. destruct (file_ch inp =? 0); [reflexivity|].
  rewrite Hsp. by rewrite read_entry_invalid.
Qed.

Lemma after_first_rule (rest : input) :
  loop_at (lit "sei3y>" ++ newline :: rest)
          (add_rule (replicate 26 []) 18
             (mk_rule false 3 true (lit "ies") (lit "y") (lit "(1:sei3y>)")))
          1 rest.
Proof.
  apply (loop_rule (lit "sei3y>" ++ newline :: rest)
           (replicate 26 []) 0
           (lit "sei3y>" ++ newline :: rest) 18
           (mk_rule false 3 true (lit "ies") (lit "y") (lit "(1:sei3y>)"))
           (lit ">" ++ newline :: rest)
           (newline :: rest));
    [constructor|done|done| |]; by vm_compute.
Qed.

Lemma invalid_entry_fails_witness :
  entry_terminator (lit "ab1x!" ++ [newline]) = 33 /\
  LoadRules (lit "sei3y>" ++ newline :: lit "ab1x!" ++ [newline]) = Invalid /\
  LoadRules (lit "sei3y>" ++ newline :: lit "A1.") = Invalid.
Proof.
  split; [reflexivity|]. split.
  - apply (invalid_entry_fails _ _ _ _ (after_first_rule (lit "ab1x!" ++ [newline])));
      [done|].
    right; right. by vm_compute.
  - apply (invalid_entry_fails _ _ _ _ (after_first_rule (lit "A1.")));
      [done|].
    left. by vm_compute.
Defined.

(** C7 fails as stated at a NUL byte met where an entry would start: it is
    a first character outside a-z, and [LoadRules] returns the table built
    from the entries before it. *)
Lemma nul_entry_returns_table :
  let rules := add_rule (replicate 26 []) 18
                 (mk_rule false 3 true (lit "ies") (lit "y") (lit "(1:sei3y>)")) in
  let entry := zero :: lit "b1x." in
  loop_at (lit "sei3y>" ++ newline :: entry) rules 1 entry /\
  file_ch entry < 97 /\ isspace (file_ch entry) = false /\
  LoadRules (lit "sei3y>" ++ newline :: entry) = Loaded rules /\
  rules !! 18%nat
    = Some [mk_rule false 3 true (lit "ies") (lit "y") (lit "(1:sei3y>)")].
Proof.
  cbv zeta. split; [apply after_first_rule|].
  repeat split; by vm_compute.
Qed.

(** ** The stored suffix *)

Lemma RuleMatches_ending (rule : rule_t) (stem : cstr) :
  RuleMatches rule (stem ++ rule_suffix rule) true = true.
Proof.
  unfold RuleMatches, strlen, strcmp. simpl negb. cbv iota.
  rewrite length_app.
  destruct (Nat.ltb_spec (length stem + length (rule_suffix rule))
                         (length (rule_suffix rule))); [lia|].
  rewrite drop_app_length' by lia.
  by rewrite bool_decide_eq_true_2.
Qed.

Lemma entry_start (line : Z) (inp : input) (rule_idx : Z) (rule : rule_t)
    (inp' : input) :
  read_entry line inp = ERule rule_idx rule inp' ->
  (file_ch inp =? 0) = false /\ isspace (file_ch inp) = false /\
  isalpha (file_ch inp) = true.
Proof.
  intros He. apply read_entry_ERule in He as (Hidx & Hr & _).
  unfold isspace, isalpha. repeat split.
  - apply Z.eqb_neq. lia.
  - apply orb_false_intro; [apply Z.eqb_neq; lia|].
    apply andb_false_intro2, Z.leb_gt. lia.
  - apply orb_true_intro. right.
    apply andb_true_intro. split; apply Z.leb_le; lia.
Qed.

Lemma read_entry_stored (line : Z) (raw flag digits apd : cstr)
    (term : ascii) (tail : input) :
  97 <= file_ch raw <= 122 ->
  Forall (fun c => isalpha (char_code c) = true) raw ->
  flag = [] \/ flag = lit "*" ->
  Forall (fun c => isdigit (char_code c) = true) digits ->
  Forall (fun c => isalpha (char_code c) = true) apd ->
  (flag = [] -> digits = [] -> apd = []) ->
  term = ">"%char \/ term = "."%char ->
  raw ++ flag ++ digits ++ apd ++ [term] <> lit "end0." ->
  read_entry line (raw ++ flag ++ digits ++ apd ++ term :: tail)
  = ERule (file_ch raw - 97) (entry_rule line raw flag digits apd term)
          (term :: tail).
Proof.
  intros Hc Hraw Hflag Hdig Hapd Hamb Hterm Hnot.
  pose proof (read_entry_grammar line raw flag digits apd term tail
                Hc Hraw Hflag Hdig Hapd Hamb Hterm) as He.
  cbv zeta in He.
  destruct (strstr _ _) eqn:Hstr; [|exact He].
  exfalso. apply Hnot. apply (label_end0 line).
  - rewrite !Forall_app. repeat split.
    + eapply Forall_impl; [exact Hraw|]. intros c. apply isalpha_label.
    + destruct Hflag as [-> | ->]; by repeat constructor.
    + eapply Forall_impl; [exact Hdig|]. intros c. apply isdigit_label.
    + eapply Forall_impl; [exact Hapd|]. intros c. apply isalpha_label.
    + destruct Hterm as [-> | ->]; by repeat constructor.
  - rewrite <- !app_assoc. exact Hstr.
Qed.




(** ** The stored rules *)

Lemma read_entry_suffix_ok (line : Z) (inp : input) (rule_idx : Z)
    (rule : rule_t) (inp' : input) :
  read_entry line inp = ERule rule_idx rule inp' ->
  0 <= rule_idx <= 25 /\ suffix_ok (Z.to_nat rule_idx) rule.
Proof.
  intros He. pose proof (entry_start _ _ _ _ _ He) as (_ & _ & Ha).
  apply read_entry_ERule in He as (Hidx & Hr & Hsuf & _).
  split; [exact Hr|].
  pose proof (read_run_Forall isalpha inp) as Hall.
  destruct inp as [|c inp0]; [simpl in Hidx; lia|].
  simpl in Hidx, Ha. simpl in Hsuf, Hall. rewrite Ha in Hsuf, Hall.
  destruct (read_run isalpha inp0) as [run inp1]. simpl in Hsuf, Hall.
  rewrite ReverseString_rev in Hsuf. simpl in Hsuf.
  unfold suffix_ok. rewrite Hsuf. split; [|split].
  - by destruct (rev run).
  - apply Forall_app. split.
    + apply Forall_rev. by inversion Hall.
    + constructor; [exact Ha|constructor].
  - exists c. split; [apply last_snoc|lia].
Qed.

Lemma add_rule_ok (rules : ruleset) (rule_idx : Z) (rule : rule_t) :
  ruleset_ok rules -> 0 <= rule_idx ->
  suffix_ok (Z.to_nat rule_idx) rule ->
  ruleset_ok (add_rule rules rule_idx rule).
Proof.
  intros [Hlen Hok] Hidx Hrule. unfold add_rule. split.
  - by rewrite length_alter.
  - intros idx chain r. rewrite list_lookup_alter.
    destruct (decide (Z.to_nat rule_idx = idx)) as [<-|Hne]; [|apply Hok].
    destruct (rules !! Z.to_nat rule_idx) as [chain0|] eqn:Hc; [|discriminate].
    simpl. intros [= <-]. rewrite elem_of_app, list_elem_of_singleton.
    intros [Hin| ->]; [by eapply Hok|exact Hrule].
Qed.

Lemma load_loop_ok (fuel : nat) :
  forall (rules : ruleset) (line : Z) (inp : input) (rules' : ruleset),
    ruleset_ok rules ->
    load_loop fuel rules line inp = Loaded rules' ->
    ruleset_ok rules'.
Proof.
  induction fuel as [|fuel IH]; intros rules line inp rules' Hok;
    [discriminate|]. simpl.
  destruct (file_ch inp =? 0); [by intros [= <-]|].
  destruct (isspace (file_ch inp)); [by apply IH|].
  destruct (read_entry (line + 1) inp) as [| |rule_idx rule inp'] eqn:He;
    [discriminate|by intros [= <-]|].
  destruct (skip_line inp') as [inp''|]; [|discriminate].
  apply IH. apply read_entry_suffix_ok in He as [Hidx Hsuf].
  apply add_rule_ok; [exact Hok|lia|exact Hsuf].
Qed.

Lemma sample_rules_fit : fits_table sample_rules.
Proof. unfold fits_table, sample_rules. repeat constructor. Qed.

(** C9 (as amended). In a rule set returned by [LoadRules] (26 buckets),
    made of rules that [struct rule] can hold (no entry of the file has
    overrun a field), the suffix of every rule is not empty, is made of
    letters only, upper or lower case, and ends in the lowercase letter of
    its bucket. *)
Theorem compiled_suffixes (file : list ascii) (rules : ruleset) :
  LoadRules file = Loaded rules ->
  fits_table rules ->
  length rules = 26%nat /\
  forall idx chain rule,
    rules !! idx = Some chain -> rule ∈ chain ->
    rule_suffix rule <> [] /\
    Forall (fun c => isalpha (char_code c) = true) (rule_suffix rule) /\
    exists c, last (rule_suffix rule) = Some c /\
              char_code c = 97 + Z.of_nat idx.
Proof.
  intros Hload _. apply (load_loop_ok _ _ _ _ _) in Hload; [exact Hload|].
  split; [reflexivity|].
  intros idx chain rule Hl. apply lookup_replicate in Hl as [-> _].
  by rewrite elem_of_nil.
Qed.

Lemma compiled_suffixes_witness :
  LoadRules sample_file = Loaded sample_rules /\
  forall idx chain rule,
    sample_rules !! idx = Some chain -> rule ∈ chain ->
    rule_suffix rule <> [] /\
    Forall (fun c => isalpha (char_code c) = true) (rule_suffix rule) /\
    exists c, last (rule_suffix rule) = Some c /\
              char_code c = 97 + Z.of_nat idx.
Proof.
  assert (H : LoadRules sample_file = Loaded sample_rules) by (by vm_compute).
  split; [exact H|].
  exact (proj2 (compiled_suffixes sample_file sample_rules H sample_rules_fit)).
Defined.

(** C9 fails as stated: after its first character, the suffix run is read
    with [isalpha], which lets upper-case letters through. *)
Lemma uppercase_suffix_compiled :
  exists rule rules,
    LoadRules (lit "aB." ++ newline :: lit "end0.") = Loaded rules /\
    rules !! 0%nat = Some [rule] /\
    rule_suffix rule = lit "Ba" /\
    ~ lowercase (rule_suffix rule).
Proof.
  eexists _, _. split; [by vm_compute|]. split; [reflexivity|].
  split; [reflexivity|].
  intros H. inversion H as [|c s Hc _]; subst. vm_compute in Hc.
  destruct Hc as [Hc _]. by apply Hc.
Qed.

(** * Further properties *)

(** ** ReverseString *)

(** X1. [ReverseString] turns a string into its reversal: the length is
    kept, the character at [i] comes from [length - 1 - i], and reversing
    twice gives the string back; the empty string is left alone. *)
Theorem ReverseString_reverses (str : cstr) :
  ReverseString str = rev str /\
  length (ReverseString str) = length str /\
  ReverseString (ReverseString str) = str /\
  ReverseString [] = [].
Proof.
  rewrite !ReverseString_rev. split; [reflexivity|].
  split; [apply length_rev|]. split; [apply rev_involutive|reflexivity].
Qed.

(** ** RuleMatches and ApplyRule *)

Lemma RuleMatches_suffix_of (rule : rule_t) (stem : cstr) (intact : bool) :
  RuleMatches rule stem intact = true ->
  (intact = true \/ rule_intact rule = false) /\
  rule_suffix rule `suffix_of` stem.
Proof.
  unfold RuleMatches, strlen, strcmp.
  destruct intact, (rule_intact rule); simpl; try discriminate;
    (destruct (Nat.ltb_spec (length stem) (length (rule_suffix rule)));
     [discriminate|]);
    (destruct (bool_decide _) eqn:Heq; [|discriminate]);
    apply bool_decide_eq_true_1 in Heq; intros _;
    (split; [auto|]);
    exists (take (length stem - length (rule_suffix rule)) stem);
    rewrite Heq at 2; by rewrite take_drop.
Qed.

(** X2. A rule matches a stem exactly when the stem ends with the rule's
    suffix and, if the rule is for intact words only, the stem is still
    intact.  In particular a suffix longer than the stem never matches. *)
Theorem RuleMatches_iff_suffix (rule : rule_t) (stem : cstr) (intact : bool) :
  RuleMatches rule stem intact = true <->
  (intact = true \/ rule_intact rule = false) /\
  rule_suffix rule `suffix_of` stem.
Proof.
  split; [apply RuleMatches_suffix_of|].
  unfold RuleMatches, strlen, strcmp.
  intros [Hi [k ->]].
    assert (Htest : negb intact && rule_intact rule = false)
      by (destruct Hi as [-> | ->]; [reflexivity|apply andb_false_r]).
    rewrite Htest, length_app.
    destruct (Nat.ltb_spec (length k + length (rule_suffix rule))
                           (length (rule_suffix rule))); [lia|].
    rewrite drop_app_length' by lia.
    by rewrite bool_decide_eq_true_2.
Qed.

Lemma RuleMatches_iff_suffix_witness :
  RuleMatches (mk_rule true 3 false (lit "ies") (lit "y") []) (lit "ponies") true
  = true.
Proof.
  apply (proj2 (RuleMatches_iff_suffix
                  (mk_rule true 3 false (lit "ies") (lit "y") [])
                  (lit "ponies") true)).
  split; [by left|]. by exists (lit "pon").
Defined.

(** X3. A rule whose remove count is the length of its suffix replaces the
    suffix by its append string, as long as the stem and the result fit
    the stem buffer. *)
Theorem ApplyRule_replaces_suffix (rule : rule_t) (base : cstr) :
  rule_remove rule = Z.of_nat (length (rule_suffix rule)) ->
  (length (base ++ rule_suffix rule) <= LONGSTR - 1)%nat ->
  (length (base ++ rule_append rule) <= LONGSTR - 1)%nat ->
  RuleMatches rule (base ++ rule_suffix rule) true = true /\
  ApplyRule rule (base ++ rule_suffix rule) = base ++ rule_append rule.
Proof.
  intros Hrem Hs Ha. split; [apply RuleMatches_ending|].
  rewrite ApplyRule_cut. rewrite (take_ge (base ++ _)) by lia.
  unfold spec_candidate. rewrite Hrem, Nat2Z.id, length_app.
  replace (length base + length (rule_suffix rule)
           - Nat.min (length (rule_suffix rule))
                     (length base + length (rule_suffix rule)))%nat
    with (length base) by lia.
  rewrite take_app_length. by apply take_ge.
Qed.

Lemma ApplyRule_replaces_suffix_witness :
  ApplyRule (mk_rule false 3 false (lit "ies") (lit "y") []) (lit "pon" ++ lit "ies")
  = lit "pon" ++ lit "y".
Proof.
  apply (proj2 (ApplyRule_replaces_suffix
                  (mk_rule false 3 false (lit "ies") (lit "y") []) (lit "pon")
                  eq_refl ltac:(simpl; lia) ltac:(simpl; lia))).
Defined.

(** ** The loop of StemWord *)

Lemma stem_pass_length (rules : ruleset) (st st' : stem_state) :
  (length (st_stem st) <= LONGSTR - 1)%nat ->
  stem_pass rules st = Some st' ->
  (length (st_stem st') <= LONGSTR - 1)%nat.
Proof.
  intros Hl. unfold stem_pass.
  destruct (bucket rules _) as [chain|]; [|discriminate].
  destruct (scan_rules chain _ _) as [[rule result]|].
  - intros Heq. apply (inj Some) in Heq. subst st'. cbn [st_stem].
    apply strncpy_length.
  - intros Heq. apply (inj Some) in Heq. by subst st'.
Qed.

Lemma stem_loop_length (rules : ruleset) (fuel : nat) :
  forall st stem debug,
    (length (st_stem st) <= LONGSTR - 1)%nat ->
    stem_loop fuel rules st = Stemmed stem debug ->
    (length stem <= LONGSTR - 1)%nat.
Proof.
  induction fuel as [|fuel IH]; simpl; intros st stem debug Hl;
    destruct (st_restem st); try discriminate;
    try (intros Heq; injection Heq as <- _; exact Hl).
  destruct (stem_pass rules st) as [st1|] eqn:Hpass; [|discriminate].
  apply IH. eapply stem_pass_length; eauto.
Qed.

(** X4. Whatever the word and the rule set, a stem that [StemWord] returns
    has at most [LONGSTR - 1] characters: it fits the [LONGSTR] buffer of
    the caller, with its terminating NUL. *)
Theorem StemWord_length_bound (fuel : nat) (word : cstr) (rules : ruleset)
    (stem debug : cstr) :
  StemWord fuel word rules = Stemmed stem debug ->
  (length stem <= LONGSTR - 1)%nat.
Proof.
  unfold StemWord. cbv zeta.
  pose proof (strncpy_length word (LONGSTR - 1)) as Hl.
  destruct (IsValid _); simpl negb; cbv iota.
  - intros H. by apply stem_loop_length in H.
  - intros Heq. injection Heq as <- _. exact Hl.
Qed.

Lemma StemWord_length_bound_witness :
  StemWord 1 (replicate 300 "a"%char) sample_rules
    = Stemmed (replicate 254 "a"%char) (replicate 254 "a"%char) /\
  (length (replicate 254 "a"%char) <= LONGSTR - 1)%nat.
Proof.
  assert (H : StemWord 1 (replicate 300 "a"%char) sample_rules
              = Stemmed (replicate 254 "a"%char) (replicate 254 "a"%char))
    by (by vm_compute).
  split; [exact H|]. exact (StemWord_length_bound _ _ _ _ _ H).
Defined.

Lemma stem_pass_intact (rules : ruleset) (st st' : stem_state) :
  stem_pass rules st = Some st' ->
  (st_restem st' = true -> st_intact st' = false) /\
  (st_intact st' = true ->
   st_intact st = true /\ st_stem st' = st_stem st /\ st_debug st' = st_debug st).
Proof.
  unfold stem_pass.
  destruct (bucket rules _) as [chain|]; [|discriminate].
  destruct (scan_rules chain _ _) as [[rule result]|];
    intros Heq; apply (inj Some) in Heq; subst st'; cbn; split; done.
Qed.

Lemma stem_states_intact (rules : ruleset) (n : nat) :
  forall st st',
    stem_states n rules st = Some st' ->
    (st_intact st' = true ->
     st_intact st = true /\ st_stem st' = st_stem st /\ st_debug st' = st_debug st) /\
    ((0 < n)%nat -> st_restem st' = true -> st_intact st' = false).
Proof.
  induction n as [|n IH]; simpl; intros st st'.
  - intros Heq. apply (inj Some) in Heq. subst st'. split; [done|lia].
  - destruct (st_restem st); [|discriminate].
    destruct (stem_pass rules st) as [st1|] eqn:Hpass; [|discriminate].
    intros Hn. destruct (IH _ _ Hn) as [H1 H2].
    destruct (stem_pass_intact _ _ _ Hpass) as [P1 P2].
    split.
    + intros Hi. destruct (H1 Hi) as (Hi1 & -> & ->). exact (P2 Hi1).
    + intros _ Hre. destruct n as [|n]; [|apply H2; [lia|exact Hre]].
      simpl in Hn. apply (inj Some) in Hn. subst st1. by apply P1.
Qed.

(** X5. In the loop of [StemWord], [intact] is set only while the stem is
    still the word it started with and no rule has been put on the trace;
    once a turn has been made and the loop goes on, [intact] is clear, so
    that no intact-only rule can match from the second turn on. *)
Theorem intact_only_first_turn (rules : ruleset) (stem0 : cstr) (n : nat)
    (st : stem_state) :
  stem_states n rules (mk_state stem0 true true stem0) = Some st ->
  (st_intact st = true -> st_stem st = stem0 /\ st_debug st = stem0) /\
  ((0 < n)%nat -> st_restem st = true ->
   forall rule, rule_intact rule = true ->
     RuleMatches rule (st_stem st) (st_intact st) = false).
Proof.
  intros Hn. destruct (stem_states_intact _ _ _ _ Hn) as [H1 H2]. split.
  - intros Hi. by destruct (H1 Hi) as (_ & ? & ?).
  - intros Hpos Hre rule Hr. unfold RuleMatches.
    by rewrite (H2 Hpos Hre), Hr.
Qed.

Lemma intact_only_first_turn_witness :
  stem_states 1 sample_rules (mk_state (lit "ponies") true true (lit "ponies"))
    = Some (mk_state (lit "pony") false true (lit "ponies =(1:sei3y>)=> pony")) /\
  RuleMatches (mk_rule true 1 false (lit "y") [] []) (lit "pony") false = false.
Proof.
  assert (H : stem_states 1 sample_rules
                (mk_state (lit "ponies") true true (lit "ponies"))
              = Some (mk_state (lit "pony") false true
                        (lit "ponies =(1:sei3y>)=> pony")))
    by (by vm_compute).
  split; [exact H|].
  exact (proj2 (intact_only_first_turn _ _ _ _ H) ltac:(lia) eq_refl
           (mk_rule true 1 false (lit "y") [] []) eq_refl).
Defined.

Lemma stem_pass_trace (rules : ruleset) (st st' : stem_state) :
  stem_pass rules st = Some st' ->
  st_debug st `prefix_of` st_debug st' /\
  (st_stem st `suffix_of` st_debug st -> st_stem st' `suffix_of` st_debug st').
Proof.
  unfold stem_pass.
  destruct (bucket rules _) as [chain|]; [|discriminate].
  destruct (scan_rules chain _ _) as [[rule result]|];
    intros Heq; apply (inj Some) in Heq; subst st'; cbn [st_stem st_debug].
  - split; [by eexists|]. intros _.
    exists (st_debug st ++ lit " =" ++ rule_id rule ++ lit "=> ").
    by rewrite <- !app_assoc.
  - split; done.
Qed.

Lemma stem_loop_trace (rules : ruleset) (fuel : nat) :
  forall st stem debug,
    st_stem st `suffix_of` st_debug st ->
    stem_loop fuel rules st = Stemmed stem debug ->
    st_debug st `prefix_of` debug /\ stem `suffix_of` debug.
Proof.
  induction fuel as [|fuel IH]; simpl; intros st stem debug Hs;
    destruct (st_restem st); try discriminate;
    try (intros Heq; injection Heq as <- <-; by split).
  destruct (stem_pass rules st) as [st1|] eqn:Hpass; [|discriminate].
  destruct (stem_pass_trace _ _ _ Hpass) as [Hp Hsf].
  intros H. destruct (IH _ _ _ (Hsf Hs) H) as [Hp' Hs'].
  split; [by etrans|exact Hs'].
Qed.

(** X6. The trace that [StemWord] leaves for a valid word begins with the
    word (as copied into the stem buffer) and ends with the stem returned;
    for a word that is not valid the trace is empty. *)
Theorem StemWord_trace (fuel : nat) (word : cstr) (rules : ruleset)
    (stem debug : cstr) :
  StemWord fuel word rules = Stemmed stem debug ->
  if IsValid (strncpy word (LONGSTR - 1))
  then strncpy word (LONGSTR - 1) `prefix_of` debug /\ stem `suffix_of` debug
  else debug = [] /\ stem = strncpy word (LONGSTR - 1).
Proof.
  unfold StemWord. cbv zeta.
  destruct (IsValid _); simpl negb; cbv iota.
  - intros H. by apply stem_loop_trace in H.
  - intros Heq. by injection Heq as <- <-.
Qed.

Lemma StemWord_trace_witness :
  StemWord 3 (lit "ponies") sample_rules
    = Stemmed (lit "poni") (lit "ponies =(1:sei3y>)=> pony =(3:y1i.)=> poni") /\
  lit "ponies" `prefix_of` lit "ponies =(1:sei3y>)=> pony =(3:y1i.)=> poni" /\
  lit "poni" `suffix_of` lit "ponies =(1:sei3y>)=> pony =(3:y1i.)=> poni".
Proof.
  assert (H : StemWord 3 (lit "ponies") sample_rules
              = Stemmed (lit "poni")
                  (lit "ponies =(1:sei3y>)=> pony =(3:y1i.)=> poni"))
    by (by vm_compute).
  split; [exact H|]. exact (StemWord_trace _ _ _ _ _ H).
Defined.

(** ** The letter index *)

Lemma char_at_last (s : cstr) (c : ascii) :
  last s = Some c -> char_at s (strlen s - 1) = c.
Proof.
  intros H. apply last_Some in H as [l ->].
  unfold char_at, strlen. rewrite length_app. simpl.
  replace (length l + 1 - 1)%nat with (length l) by lia.
  apply nth_lookup_Some. by rewrite list_lookup_middle.
Qed.

Lemma load_loop_Loaded_ok (file : list ascii) (rules : ruleset) :
  LoadRules file = Loaded rules -> ruleset_ok rules.
Proof.
  intros Hload. apply (load_loop_ok _ _ _ _ _) in Hload; [exact Hload|].
  split; [reflexivity|].
  intros idx chain rule Hl. apply lookup_replicate in Hl as [-> _].
  by rewrite elem_of_nil.
Qed.

(** X7. In a rule set returned by [LoadRules], made of rules that
    [struct rule] can hold, a rule that matches a stem lies in the bucket
    of the stem's last letter: looking only into [rules[last_letter - 97]],
    as [StemWord] does, misses no rule that could match. *)
Theorem matching_rule_in_bucket (file : list ascii) (rules : ruleset)
    (idx : nat) (chain : list rule_t) (rule : rule_t) (stem : cstr)
    (intact : bool) :
  LoadRules file = Loaded rules ->
  fits_table rules ->
  rules !! idx = Some chain -> rule ∈ chain ->
  RuleMatches rule stem intact = true ->
  bucket rules (char_at stem (strlen stem - 1)) = Some chain.
Proof.
  intros Hload _ Hidx Hin Hm.
  destruct (load_loop_Loaded_ok _ _ Hload) as [H26 Hok].
  destruct (Hok idx chain rule Hidx Hin) as (Hne & _ & c & Hlast & Hc).
  destruct (RuleMatches_suffix_of _ _ _ Hm) as [_ Hsuf].
  destruct Hsuf as [k ->].
  apply last_Some in Hlast as [l Hl].
  assert (Hlast' : last (k ++ rule_suffix rule) = Some c).
  { rewrite Hl, app_assoc. apply last_snoc. }
  rewrite (char_at_last _ _ Hlast'). unfold bucket. cbv zeta.
  assert (idx < 26)%nat by (rewrite <- H26; eapply lookup_lt_Some; eauto).
  rewrite Hc.
  destruct (Z.leb_spec 0 (97 + Z.of_nat idx - 97)); [|lia].
  destruct (Z.leb_spec (97 + Z.of_nat idx - 97) 25); [|lia]. simpl.
  by replace (Z.to_nat (97 + Z.of_nat idx - 97)) with idx by lia.
Qed.

Lemma matching_rule_in_bucket_witness :
  exists rule,
    sample_rules !! 18%nat = Some [rule] /\
    RuleMatches rule (lit "ponies") true = true /\
    bucket sample_rules (char_at (lit "ponies") (strlen (lit "ponies") - 1))
      = Some [rule].
Proof.
  exists (mk_rule false 3 true (lit "ies") (lit "y") (lit "(1:sei3y>)")).
  split; [reflexivity|]. split; [reflexivity|].
  apply (matching_rule_in_bucket sample_file sample_rules 18
           [mk_rule false 3 true (lit "ies") (lit "y") (lit "(1:sei3y>)")]
           (mk_rule false 3 true (lit "ies") (lit "y") (lit "(1:sei3y>)"))
           (lit "ponies") true).
  - by vm_compute.
  - exact sample_rules_fit.
  - reflexivity.
  - by left.
  - reflexivity.
Defined.

(** ** What LoadRules needs to return a rule set *)

Lemma read_entry_suffix_of (line : Z) (inp : input) (rule_idx : Z)
    (rule : rule_t) (inp' : input) :
  read_entry line inp = ERule rule_idx rule inp' -> inp' `suffix_of` inp.
Proof.
  unfold read_entry. cbv zeta.
  destruct ((file_ch inp - 97 <? 0) || (25 <? file_ch inp - 97));
    [discriminate|].
  pose proof (read_run_split isalpha inp) as Hs1.
  destruct (read_run isalpha inp) as [suffix inp1]. simpl in Hs1.
  set (star := if file_ch inp1 =? 42 then _ else _).
  assert (Hs2 : star.2 `suffix_of` inp1).
  { subst star. destruct (file_ch inp1 =? 42); simpl; [|done].
    destruct inp1 as [|c inp1]; simpl; [done|]. by exists [c]. }
  destruct star as [[intact id] inp2]. simpl in Hs2.
  pose proof (read_run_split isdigit inp2) as Hs3.
  destruct (read_run isdigit inp2) as [tmp_str inp3]. simpl in Hs3.
  pose proof (read_run_split isalpha inp3) as Hs4.
  destruct (read_run isalpha inp3) as [append inp4]. simpl in Hs4.
  assert (Hsuf : inp4 `suffix_of` inp).
  { trans inp3; [by exists append|]. trans inp2; [by exists tmp_str|].
    trans inp1; [exact Hs2|]. by exists suffix. }
  destruct (file_ch inp4 =? 62).
  - destruct (strstr _ _); [discriminate|]. by intros [= _ _ <-].
  - destruct (negb (file_ch inp4 =? 46)); [discriminate|].
    destruct (strstr _ _); [discriminate|]. by intros [= _ _ <-].
Qed.

Lemma skip_line_suffix_of (inp inp' : input) :
  skip_line inp = Some inp' -> inp' `suffix_of` inp.
Proof.
  induction inp as [|c rest IH]; simpl; [discriminate|].
  destruct (_ && _).
  - intros H. trans rest; [by apply IH|]. by exists [c].
  - by intros [= <-].
Qed.

Lemma fgetc_suffix_of (inp : input) : fgetc inp `suffix_of` inp.
Proof. destruct inp as [|c rest]; simpl; [done|]. by exists [c]. Qed.

(** The two ways out of the main loop with a rule set. *)
Lemma load_loop_Loaded (fuel : nat) :
  forall (rules : ruleset) (line : Z) (inp : input) (rules' : ruleset),
    load_loop fuel rules line inp = Loaded rules' ->
    (exists pre rest, inp = pre ++ lit "end0." ++ rest) \/ zero ∈ inp.
Proof.
  assert (Hlift : forall inp2 inp : input,
            inp2 `suffix_of` inp ->
            (exists pre rest, inp2 = pre ++ lit "end0." ++ rest) \/ zero ∈ inp2 ->
            (exists pre rest, inp = pre ++ lit "end0." ++ rest) \/ zero ∈ inp).
  { intros inp2 inp [k ->] [(pre & rest & ->)|Hz].
    - left. exists (k ++ pre), rest. by rewrite <- app_assoc.
    - right. rewrite elem_of_app. by right. }
  induction fuel as [|fuel IH]; intros rules line inp rules';
    [discriminate|]. simpl.
  destruct (Z.eqb_spec (file_ch inp) 0) as [Hz|Hz].
  { intros _. right.
    destruct (file_ch_head inp zero Hz) as [rest ->]; [done|]. by left. }
  destruct (isspace (file_ch inp)).
  { intros H. apply (Hlift (fgetc inp)); [apply fgetc_suffix_of|]. by eapply IH. }
  destruct (read_entry (line + 1) inp) as [| |rule_idx rule inp'] eqn:He;
    [discriminate| |].
  { intros _. left. apply read_entry_EStop in He as [rest ->]. by exists [], rest. }
  destruct (skip_line inp') as [inp''|] eqn:Hs; [|discriminate].
  intros H. apply (Hlift (fgetc inp'')); [|by eapply IH].
  trans inp''; [apply fgetc_suffix_of|].
  trans inp'; [by apply skip_line_suffix_of|by eapply read_entry_suffix_of].
Qed.

(** X8. [LoadRules] returns a rule set only for a file that holds the text
    [end0.] or a NUL byte: the end of the file does not end the main loop,
    so a file with neither is refused ("Invalid rule encountered") or
    keeps [LoadRules] in its comment loop for ever. *)
Theorem LoadRules_needs_end (file : list ascii) :
  zero ∉ file ->
  (forall pre rest, file <> pre ++ lit "end0." ++ rest) ->
  LoadRules file = Invalid \/ LoadRules file = Hangs.
Proof.
  intros Hz Hend.
  destruct (LoadRules file) as [rules| | |] eqn:Hload; auto.
  - apply load_loop_Loaded in Hload as [(pre & rest & ->)|Hin]; [|done].
    by destruct (Hend pre rest).
  - by destruct (LoadRules_fuel file).
Qed.

Lemma LoadRules_needs_end_witness :
  LoadRules (lit "gni3>" ++ [newline]) = Invalid \/
  LoadRules (lit "gni3>" ++ [newline]) = Hangs.
Proof.
  apply LoadRules_needs_end.
  - unfold lit. simpl. rewrite !elem_of_cons, elem_of_nil.
    intuition discriminate.
  - intros pre rest H.
    assert (Hin : "e"%char ∈ lit "gni3>" ++ [newline]).
    { rewrite H, !elem_of_app. right. left. by left. }
    revert Hin. unfold lit. simpl. rewrite !elem_of_cons, elem_of_nil.
    intuition discriminate.
Defined.

Lemma skip_line_None (inp : input) :
  Forall (fun c => char_code c <> 0 /\ char_code c <> 10) inp ->
  skip_line inp = None.
Proof.
  induction 1 as [|c s [H0 H10] _ IH]; simpl; [reflexivity|].
  apply Z.eqb_neq in H0, H10. rewrite H0, H10. exact IH.
Qed.

(** X9. When the file ends in the line of a rule that has been stored,
    without a newline or a NUL after the rule, the loop that skips the rest
    of the line never ends: [LoadRules] does not return. *)
Theorem LoadRules_hangs (file : list ascii) (rules : ruleset) (line : Z)
    (inp : input) (rule_idx : Z) (rule : rule_t) (inp' : input) :
  loop_at file rules line inp ->
  read_entry (line + 1) inp = ERule rule_idx rule inp' ->
  Forall (fun c => char_code c <> 0 /\ char_code c <> 10) inp' ->
  LoadRules file = Hangs.
Proof.
  intros Hat He Hrest.
  rewrite (loop_at_LoadRules _ _ _ _ Hat (S (length inp))) by lia.
  cbn [load_loop].
  destruct (entry_start _ _ _ _ _ He) as (-> & -> & _). rewrite He.
  by rewrite (skip_line_None _ Hrest).
Qed.

Lemma LoadRules_hangs_witness :
  LoadRules (lit "gni3> no new line") = Hangs.
Proof.
  apply (LoadRules_hangs _ _ 0 _ 6
           (mk_rule false 3 true (lit "ing") [] (lit "(1:gni3>)"))
           (lit "> no new line") (loop_start _)).
  - reflexivity.
  - repeat constructor; by vm_compute.
Defined.

(** ** Whitespace and comments *)

(** X10. Whitespace before the first rule is skipped: it changes nothing
    in what [LoadRules] returns. *)
Theorem LoadRules_leading_space (ws file : list ascii) :
  Forall (fun c => isspace (char_code c) = true) ws ->
  LoadRules (ws ++ file) = LoadRules file.
Proof.
  induction 1 as [|c ws Hc _ IH]; [reflexivity|].
  rewrite <- IH. unfold LoadRules. simpl.
  rewrite Hc.
  destruct (Z.eqb_spec (char_code c) 0) as [Hz|_]; [|reflexivity].
  rewrite Hz in Hc. discriminate.
Qed.

Lemma LoadRules_leading_space_witness :
  LoadRules (lit "  " ++ newline :: sample_file) = Loaded sample_rules.
Proof.
  change (lit "  " ++ newline :: sample_file)
    with ((lit "  " ++ [newline]) ++ sample_file).
  rewrite LoadRules_leading_space; [by vm_compute|].
  by repeat constructor.
Defined.

(** ** The order of the rules *)

Lemma add_rule_lookup (rules : ruleset) (rule_idx : Z) (rule : rule_t)
    (i : nat) (chain : list rule_t) :
  rules !! i = Some chain ->
  add_rule rules rule_idx rule !! i
  = Some (if decide (Z.to_nat rule_idx = i) then chain ++ [rule] else chain).
Proof.
  intros Hc. unfold add_rule. rewrite list_lookup_alter.
  destruct (decide (Z.to_nat rule_idx = i)) as [->|]; [|exact Hc].
  by rewrite Hc.
Qed.

Lemma load_loop_extends (fuel : nat) :
  forall (rules : ruleset) (line : Z) (inp : input) (final : ruleset),
    load_loop fuel rules line inp = Loaded final ->
    forall i chain, rules !! i = Some chain ->
      exists chain', final !! i = Some chain' /\ chain `prefix_of` chain'.
Proof.
  induction fuel as [|fuel IH]; intros rules line inp final; [discriminate|].
  simpl.
  destruct (file_ch inp =? 0); [intros [= <-]; by eauto|].
  destruct (isspace (file_ch inp)); [apply IH|].
  destruct (read_entry (line + 1) inp) as [| |rule_idx rule inp'];
    [discriminate|intros [= <-]; by eauto|].
  destruct (skip_line inp') as [inp''|]; [|discriminate].
  intros H i chain Hc.
  destruct (IH _ _ _ _ H i _ (add_rule_lookup rules rule_idx rule i chain Hc))
    as (chain' & Hf & Hp).
  exists chain'. split; [exact Hf|].
  destruct (decide _); [|exact Hp].
  trans (chain ++ [rule]); [by apply prefix_app_r|exact Hp].
Qed.

Lemma loop_at_length (file : list ascii) (rules : ruleset) (line : Z)
    (inp : input) :
  loop_at file rules line inp -> length rules = 26%nat.
Proof.
  induction 1; [reflexivity|assumption|].
  unfold add_rule. by rewrite length_alter.
Qed.



(** ** What is stored for a rule *)

Lemma atoi_acc_nonneg (digits : cstr) :
  Forall (fun c => isdigit (char_code c) = true) digits ->
  forall acc, 0 <= acc ->
    0 <= fold_left (fun acc c => acc * 10 + (char_code c - 48)) digits acc.
Proof.
  induction 1 as [|c s Hc _ IH]; intros acc Hacc; simpl; [exact Hacc|].
  apply IH. unfold isdigit in Hc.
  apply andb_true_iff in Hc as [H1 H2]. apply Z.leb_le in H1, H2. lia.
Qed.

Lemma read_entry_counts (line : Z) (inp : input) (rule_idx : Z)
    (rule : rule_t) (inp' : input) :
  read_entry line inp = ERule rule_idx rule inp' ->
  0 <= rule_remove rule /\
  Forall (fun c => isalpha (char_code c) = true) (rule_append rule).
Proof.
  unfold read_entry. cbv zeta.
  destruct ((file_ch inp - 97 <? 0) || (25 <? file_ch inp - 97));
    [discriminate|].
  destruct (read_run isalpha inp) as [suffix inp1].
  destruct (if file_ch inp1 =? 42 then _ else _) as [[intact id] inp2].
  pose proof (read_run_Forall isdigit inp2) as Hd.
  destruct (read_run isdigit inp2) as [tmp_str inp3]. simpl in Hd.
  pose proof (read_run_Forall isalpha inp3) as Ha.
  destruct (read_run isalpha inp3) as [append inp4]. simpl in Ha.
  assert (Hrem : 0 <= (if (strlen tmp_str =? 0)%nat then 0 else atoi tmp_str)).
  { destruct (strlen tmp_str =? 0)%nat; [lia|].
    by apply atoi_acc_nonneg. }
  destruct (file_ch inp4 =? 62).
  - destruct (strstr _ _); [discriminate|]. by intros [= _ <- _].
  - destruct (negb (file_ch inp4 =? 46)); [discriminate|].
    destruct (strstr _ _); [discriminate|]. by intros [= _ <- _].
Qed.

Lemma load_loop_all_rules (P : rule_t -> Prop) (fuel : nat) :
  (forall line inp rule_idx rule inp',
     read_entry line inp = ERule rule_idx rule inp' -> P rule) ->
  forall (rules : ruleset) (line : Z) (inp : input) (final : ruleset),
    Forall (Forall P) rules ->
    load_loop fuel rules line inp = Loaded final ->
    Forall (Forall P) final.
Proof.
  intros HP. induction fuel as [|fuel IH]; intros rules line inp final Hall;
    [discriminate|]. simpl.
  destruct (file_ch inp =? 0); [by intros [= <-]|].
  destruct (isspace (file_ch inp)); [by apply IH|].
  destruct (read_entry (line + 1) inp) as [| |rule_idx rule inp'] eqn:He;
    [discriminate|by intros [= <-]|].
  destruct (skip_line inp') as [inp''|]; [|discriminate].
  apply IH. unfold add_rule. apply Forall_alter; [exact Hall|].
  intros chain _ Hc. apply Forall_app. split; [exact Hc|].
  constructor; [by eapply HP|constructor].
Qed.

(** X12. In a rule set returned by [LoadRules], made of rules that
    [struct rule] can hold (in particular, every number read by [atoi] is
    an [int]), no remove count is negative and every append string is made
    of letters only. *)
Theorem compiled_counts (file : list ascii) (rules : ruleset) :
  LoadRules file = Loaded rules ->
  fits_table rules ->
  Forall (Forall (fun rule =>
            0 <= rule_remove rule <= INT_MAX /\
            Forall (fun c => isalpha (char_code c) = true) (rule_append rule)))
         rules.
Proof.
  intros Hload Hfit.
  assert (Hall : Forall (Forall (fun rule =>
            0 <= rule_remove rule /\
            Forall (fun c => isalpha (char_code c) = true) (rule_append rule)))
         rules).
  { eapply load_loop_all_rules; [|..|exact Hload].
    - intros line inp rule_idx rule inp'. apply read_entry_counts.
    - apply Forall_replicate. constructor. }
  apply Forall_forall. intros chain Hchain.
  apply Forall_forall. intros rule Hrule.
  destruct (proj1 (Forall_forall _ _)
              (proj1 (Forall_forall _ _) Hall chain Hchain) rule Hrule)
    as [Hrem Happ].
  pose proof (proj1 (Forall_forall _ _)
                (proj1 (Forall_forall _ _) Hfit chain Hchain) rule Hrule)
    as Hfits.
  unfold fits_struct in Hfits. rewrite !andb_true_iff, Z.leb_le in Hfits.
  split; [lia|exact Happ].
Qed.

Lemma compiled_counts_witness :
  Forall (Forall (fun rule =>
            0 <= rule_remove rule <= INT_MAX /\
            Forall (fun c => isalpha (char_code c) = true) (rule_append rule)))
         sample_rules.
Proof.
  apply (compiled_counts sample_file); [by vm_compute|exact sample_rules_fit].
Defined.

Lemma skip_line_comment (term : ascii) (comment rest : input) :
  char_code term <> 0 -> char_code term <> 10 ->
  Forall (fun c => char_code c <> 0 /\ char_code c <> 10) comment ->
  skip_line (term :: comment ++ newline :: rest) = Some (newline :: rest).
Proof.
  intros H0 H10 Hc.
  change (term :: comment ++ newline :: rest)
    with ((term :: comment) ++ newline :: rest).
  assert (Hall : Forall (fun c => char_code c <> 0 /\ char_code c <> 10)
                        (term :: comment)) by (by constructor).
  induction Hall as [|c s [Hc0 Hc10] _ IH]; [reflexivity|]. simpl.
  apply Z.eqb_neq in Hc0, Hc10. by rewrite Hc0, Hc10.
Qed.

Lemma add_rule_fits (rules : ruleset) (rule_idx : Z) (rule : rule_t) :
  fits_table rules -> fits_struct rule = true ->
  fits_table (add_rule rules rule_idx rule).
Proof.
  intros Hfit Hrule. unfold fits_table, add_rule.
  apply Forall_alter; [exact Hfit|].
  intros chain _ Hc. apply Forall_app. split; [exact Hc|by repeat constructor].
Qed.

(** X13. A line written as the grammar says (letters, an optional [*],
    digits, letters, then [>] or [.], and a comment up to the end of the
    line), other than the pseudo-rule, whose rule [struct rule] can hold
    like those stored before it, makes the main loop store one rule and go
    on with the next line: [LoadRules] returns what its loop returns from
    there.  The rule holds the letters reversed as suffix, the flag, the
    number read from the digits (0 without digits), the append letters, the
    continuation flag for [>], and as label the rule's number and its text
    as written; the comment leaves no trace.  When [LoadRules] returns a
    rule set, the rule is in it, in the chain of its first letter, after
    the rules stored there before. *)
Theorem rule_line_stored (file : list ascii) (rules : ruleset) (line : Z)
    (raw flag digits apd : cstr) (term : ascii) (comment rest : input) :
  let rule := entry_rule (line + 1) raw flag digits apd term in
  let rule_idx := file_ch raw - 97 in
  97 <= file_ch raw <= 122 ->
  Forall (fun c => isalpha (char_code c) = true) raw ->
  flag = [] \/ flag = lit "*" ->
  Forall (fun c => isdigit (char_code c) = true) digits ->
  Forall (fun c => isalpha (char_code c) = true) apd ->
  (flag = [] -> digits = [] -> apd = []) ->
  term = ">"%char \/ term = "."%char ->
  raw ++ flag ++ digits ++ apd ++ [term] <> lit "end0." ->
  Forall (fun c => char_code c <> 0 /\ char_code c <> 10) comment ->
  fits_table rules ->
  fits_struct rule = true ->
  loop_at file rules line
    (raw ++ flag ++ digits ++ apd ++ term :: comment ++ newline :: rest) ->
  loop_at file (add_rule rules rule_idx rule) (line + 1) rest /\
  fits_table (add_rule rules rule_idx rule) /\
  (forall fuel, (length rest < fuel)%nat ->
     LoadRules file = load_loop fuel (add_rule rules rule_idx rule) (line + 1) rest) /\
  (forall final, LoadRules file = Loaded final ->
     exists before after,
       rules !! Z.to_nat rule_idx = Some before /\
       final !! Z.to_nat rule_idx = Some (before ++ rule :: after)).
Proof.
  intros rule rule_idx Hc Hraw Hflag Hdig Hapd Hamb Hterm Hnot Hcom Hfit Hrule Hat.
  pose proof (read_entry_stored (line + 1) raw flag digits apd term
                (comment ++ newline :: rest)
                Hc Hraw Hflag Hdig Hapd Hamb Hterm Hnot) as He.
  fold rule rule_idx in He.
  assert (Hnext : loop_at file (add_rule rules rule_idx rule) (line + 1) rest).
  { destruct (entry_start _ _ _ _ _ He) as (Hz & Hsp & _).
    change rest with (fgetc (newline :: rest)).
    eapply loop_rule; [exact Hat|by apply Z.eqb_neq|exact Hsp|exact He|].
    apply skip_line_comment; [| |exact Hcom];
      destruct Hterm as [-> | ->]; by vm_compute. }
  split; [exact Hnext|]. split; [by apply add_rule_fits|]. split.
  - intros fuel Hfuel. by apply (loop_at_LoadRules _ _ _ _ Hnext).
  - intros final Hload.
    rewrite (loop_at_LoadRules _ _ _ _ Hnext (S (length rest))) in Hload by lia.
    destruct (lookup_lt_is_Some_2 rules (Z.to_nat rule_idx)) as [before Hb].
    { rewrite (loop_at_length _ _ _ _ Hat). subst rule_idx. lia. }
    pose proof (add_rule_lookup rules rule_idx rule _ before Hb) as Hadd.
    rewrite decide_True in Hadd by reflexivity.
    destruct (load_loop_extends _ _ _ _ _ Hload _ _ Hadd)
      as (chain' & Hf & [after ->]).
    exists before, after. split; [exact Hb|]. by rewrite Hf, <- app_assoc.
Qed.

Lemma rule_line_stored_witness :
  let file := lit "ytic*2if.  city to cif" ++ newline :: lit "end0." in
  let rule := mk_rule true 2 false (lit "city") (lit "if") (lit "(1:ytic*2if.)") in
  loop_at file (add_rule (replicate 26 []) 24 rule) 1 (lit "end0.") /\
  LoadRules file = Loaded (add_rule (replicate 26 []) 24 rule).
Proof.
  cbv zeta.
  destruct (rule_line_stored
              (lit "ytic*2if.  city to cif" ++ newline :: lit "end0.")
              (replicate 26 []) 0
              (lit "ytic") (lit "*") (lit "2") (lit "if") "."
              (lit "  city to cif") (lit "end0."))
    as (Hat & _ & Hload & _).
  - by vm_compute.
  - by repeat constructor.
  - by right.
  - by repeat constructor.
  - by repeat constructor.
  - discriminate.
  - by right.
  - discriminate.
  - repeat constructor; by vm_compute.
  - unfold fits_table. by repeat constructor.
  - reflexivity.
  - apply loop_start.
  - split; [exact Hat|].
    rewrite (Hload 6%nat) by (simpl; lia). reflexivity.
Defined.

(** ** The scan of a bucket *)

Lemma scan_rules_split (chain : list rule_t) (stem : cstr) (intact : bool)
    (rule : rule_t) (result : cstr) :
  scan_rules chain stem intact = Some (rule, result) ->
  exists pre post,
    chain = pre ++ rule :: post /\
    Forall (fun r => RuleMatches r stem intact = false \/
                     IsValid (ApplyRule r stem) = false) pre.
Proof.
  induction chain as [|r chain IH]; simpl; [discriminate|].
  destruct (RuleMatches r stem intact) eqn:Hm; simpl.
  - destruct (IsValid (ApplyRule r stem)) eqn:Hv; simpl.
    + intros [= <- _]. exists [], chain. split; [reflexivity|constructor].
    + intros H. destruct (IH H) as (pre & post & -> & Hpre).
      exists (r :: pre), post. split; [reflexivity|]. constructor; auto.
  - intros H. destruct (IH H) as (pre & post & -> & Hpre).
    exists (r :: pre), post. split; [reflexivity|]. constructor; auto.
Qed.

(** X14. The scan of a bucket ends without a winner exactly when every
    rule of the bucket fails to match or gives a candidate that is not
    valid; and when a rule wins, every rule before it in the bucket has
    failed in one of these two ways. *)
Theorem scan_rules_outcome (chain : list rule_t) (stem : cstr) (intact : bool) :
  (scan_rules chain stem intact = None <->
   Forall (fun r => RuleMatches r stem intact = false \/
                    IsValid (ApplyRule r stem) = false) chain) /\
  (forall rule result,
     scan_rules chain stem intact = Some (rule, result) ->
     exists pre post,
       chain = pre ++ rule :: post /\
       Forall (fun r => RuleMatches r stem intact = false \/
                        IsValid (ApplyRule r stem) = false) pre /\
       RuleMatches rule stem intact = true /\
       result = ApplyRule rule stem /\ IsValid result = true).
Proof.
  split.
  - induction chain as [|r chain IH]; simpl; [by split; [constructor|]|].
    destruct (RuleMatches r stem intact) eqn:Hm; simpl.
    + destruct (IsValid (ApplyRule r stem)) eqn:Hv; simpl.
      * split; [discriminate|]. intros H. inversion H as [|? ? [?|?] _]; congruence.
      * rewrite IH. split; [intros H; constructor; auto|by inversion 1].
    + rewrite IH. split; [intros H; constructor; auto|by inversion 1].
  - intros rule result H.
    destruct (scan_rules_split _ _ _ _ _ H) as (pre & post & Hc & Hpre).
    destruct (scan_rules_Some _ _ _ _ _ H) as (_ & Hm & Hr & Hv).
    by exists pre, post.
Qed.

Lemma scan_rules_outcome_witness :
  scan_rules [mk_rule false 3 true (lit "ies") (lit "y") [];
              mk_rule false 1 false (lit "s") [] []] (lit "is") true = None.
Proof.
  apply (proj2 (proj1 (scan_rules_outcome _ (lit "is") true))).
  constructor; [by left|]. constructor; [by right|constructor].
Defined.

(** ** The numbers in the labels *)

Lemma read_entry_label (line : Z) (inp : input) (rule_idx : Z)
    (rule : rule_t) (inp' : input) :
  read_entry line inp = ERule rule_idx rule inp' ->
  sprintf_id line `prefix_of` rule_id rule.
Proof.
  unfold read_entry. cbv zeta.
  destruct ((file_ch inp - 97 <? 0) || (25 <? file_ch inp - 97));
    [discriminate|].
  destruct (read_run isalpha inp) as [suffix inp1].
  set (star := if file_ch inp1 =? 42 then _ else _).
  assert (Hstar : sprintf_id line `prefix_of` star.1.2).
  { subst star. destruct (file_ch inp1 =? 42); simpl.
    - exists (suffix ++ lit "*"). by rewrite app_assoc.
    - by exists suffix. }
  destruct star as [[intact id] inp2]. simpl in Hstar.
  destruct (read_run isdigit inp2) as [tmp_str inp3].
  destruct (read_run isalpha inp3) as [append inp4].
  assert (Hid : forall term : cstr,
            sprintf_id line `prefix_of` ((id ++ tmp_str) ++ append) ++ term ++ lit ")").
  { intros term. destruct Hstar as [k ->].
    exists (k ++ tmp_str ++ append ++ term ++ lit ")").
    by rewrite <- !app_assoc. }
  destruct (file_ch inp4 =? 62).
  - destruct (strstr _ _); [discriminate|]. intros [= _ <- _].
    exact (Hid (lit ">")).
  - destruct (negb (file_ch inp4 =? 46)); [discriminate|].
    destruct (strstr _ _); [discriminate|]. intros [= _ <- _].
    exact (Hid (lit ".")).
Qed.

Lemma concat_alter_perm (rules : ruleset) (i : nat) (rule : rule_t) :
  (i < length rules)%nat ->
  concat (alter (fun chain => chain ++ [rule]) i rules) ≡ₚ concat rules ++ [rule].
Proof.
  revert i. induction rules as [|chain rules IH]; intros i Hi; simpl in Hi; [lia|].
  destruct i as [|i].
  - change ((chain ++ [rule]) ++ concat rules ≡ₚ (chain ++ concat rules) ++ [rule]).
    rewrite <- !app_assoc. f_equiv. apply Permutation_app_comm.
  - change (chain ++ concat (alter (fun c => c ++ [rule]) i rules)
            ≡ₚ (chain ++ concat rules) ++ [rule]).
    rewrite IH by lia. by rewrite app_assoc.
Qed.

Lemma numbered_snoc (order : list rule_t) (rule : rule_t) :
  numbered order ->
  sprintf_id (Z.of_nat (S (length order))) `prefix_of` rule_id rule ->
  numbered (order ++ [rule]).
Proof.
  intros Hn Hr i r Hi. apply lookup_snoc_Some in Hi as [[_ Hi]|[-> <-]].
  - by apply Hn.
  - exact Hr.
Qed.

Lemma load_loop_numbered (fuel : nat) :
  forall (rules : ruleset) (line : Z) (inp : input) (final : ruleset)
         (order : list rule_t),
    length rules = 26%nat ->
    line = Z.of_nat (length order) ->
    order ≡ₚ concat rules ->
    numbered order ->
    Forall (fun chain => chain `sublist_of` order) rules ->
    load_loop fuel rules line inp = Loaded final ->
    exists order',
      order `prefix_of` order' /\ order' ≡ₚ concat final /\ numbered order' /\
      Forall (fun chain => chain `sublist_of` order') final.
Proof.
  induction fuel as [|fuel IH]; intros rules line inp final order
    H26 Hline Hperm Hnum Hsub; [discriminate|]. simpl.
  destruct (file_ch inp =? 0); [intros [= <-]; by exists order|].
  destruct (isspace (file_ch inp)); [by apply IH|].
  destruct (read_entry (line + 1) inp) as [| |rule_idx rule inp'] eqn:He;
    [discriminate|intros [= <-]; by exists order|].
  destruct (skip_line inp') as [inp''|]; [|discriminate].
  intros Hload.
  pose proof (read_entry_label _ _ _ _ _ He) as Hlabel.
  apply read_entry_ERule in He as (_ & Hr & _).
  destruct (IH (add_rule rules rule_idx rule) (line + 1) (fgetc inp'') final
               (order ++ [rule])) as (order' & Hpre & Hrest); [..|exact Hload|].
  - unfold add_rule. by rewrite length_alter.
  - rewrite length_app. simpl. lia.
  - unfold add_rule. rewrite concat_alter_perm by lia. by rewrite Hperm.
  - apply numbered_snoc; [exact Hnum|].
    replace (Z.of_nat (S (length order))) with (line + 1) by lia. exact Hlabel.
  - unfold add_rule. apply Forall_alter.
    + eapply Forall_impl; [exact Hsub|]. intros chain Hc.
      by apply sublist_inserts_r.
    + intros chain Hl _. apply sublist_app; [|reflexivity].
      exact (Forall_lookup_1 _ _ _ _ Hsub Hl).
  - exists order'. split; [|exact Hrest].
    trans (order ++ [rule]); [by apply prefix_app_r|exact Hpre].
Qed.

(** X15. The number that [LoadRules] counts in [line] and writes at the
    head of each label, [(1:], [(2:], [(3:], ..., is the number of the rule
    among those stored, whatever blank lines and comments lie between them:
    the rules of the rule set returned (made of rules that [struct rule]
    can hold) can be put in one sequence, in which the rule at place [i]
    bears the number [i + 1], and every chain of the rule set has its rules
    in the order of that sequence. *)
Theorem line_counts_rules (file : list ascii) (final : ruleset) :
  LoadRules file = Loaded final ->
  fits_table final ->
  exists order : list rule_t,
    order ≡ₚ concat final /\
    Forall (fun chain => chain `sublist_of` order) final /\
    forall i rule,
      order !! i = Some rule ->
      sprintf_id (Z.of_nat (S i)) `prefix_of` rule_id rule.
Proof.
  intros Hload _.
  destruct (load_loop_numbered (S (length file)) (replicate 26 []) 0 file final [])
    as (order & _ & Hperm & Hnum & Hsub); [reflexivity|reflexivity| | | |exact Hload|].
  - assert (Hempty : forall n, concat (replicate n ([] : list rule_t)) = [])
      by (induction n; simpl; auto).
    by rewrite Hempty.
  - intros i rule Hi. by rewrite lookup_nil in Hi.
  - apply Forall_replicate. constructor.
  - by exists order.
Qed.

Lemma line_counts_rules_witness :
  exists order : list rule_t,
    order ≡ₚ concat sample_rules /\
    Forall (fun chain => chain `sublist_of` order) sample_rules /\
    forall i rule,
      order !! i = Some rule ->
      sprintf_id (Z.of_nat (S i)) `prefix_of` rule_id rule.
Proof.
  apply (line_counts_rules sample_file); [by vm_compute|exact sample_rules_fit].
Defined.

(** ** The words of a token *)

Lemma skip_nonalpha_length (s : cstr) : (length (skip_nonalpha s) <= length s)%nat.
Proof.
  induction s as [|c s IH]; simpl; [lia|].
  destruct (_ && _); simpl; lia.
Qed.

Lemma main_words_fuel (fuel : nat) :
  forall (n : nat) (s : cstr),
    (length s < fuel)%nat -> (length s < n)%nat ->
    main_words fuel s = main_words n s.
Proof.
  induction fuel as [|fuel IH]; intros n s Hf Hn; [lia|].
  destruct n as [|n]; [lia|]. simpl.
  destruct s as [|c s]; [reflexivity|].
  pose proof (skip_nonalpha_length (c :: s)) as H1.
  pose proof (read_run_length isalpha (skip_nonalpha (c :: s))) as H2.
  destruct (read_run isalpha (skip_nonalpha (c :: s))) as [word strend].
  simpl in H2. f_equal.
  assert (length (tail strend) <= length strend)%nat by (destruct strend; simpl; lia).
  simpl in H1. destruct strend as [|x strend]; simpl in *.
  - destruct fuel, n; reflexivity.
  - apply IH; lia.
Qed.

Lemma lower_char_lowercase (c : ascii) :
  isalpha (char_code c) = true -> 97 <= char_code (lower_char c) <= 122.
Proof.
  unfold lower_char, isalpha, isupper. intros H.
  pose proof (N_ascii_bounded c) as Hb.
  destruct ((65 <=? char_code c) && (char_code c <=? 90)) eqn:Hu.
  - apply andb_true_iff in Hu as [H1 H2].
    apply Z.leb_le in H1, H2.
    assert (Hv : 65 <= Z.of_N (N_of_ascii c) <= 90).
    { unfold char_code in H1, H2.
      destruct (Z.leb_spec 128 (Z.of_N (N_of_ascii c))); lia. }
    unfold char_code. rewrite N_ascii_embedding by lia.
    destruct (Z.leb_spec 128 (Z.of_N (N_of_ascii c + 32))); lia.
  - simpl in H. apply andb_true_iff in H as [H1 H2].
    apply Z.leb_le in H1, H2. lia.
Qed.

Lemma main_words_words (fuel : nat) :
  forall (s word : cstr),
    word ∈ main_words fuel s -> word <> [] /\ lowercase word.
Proof.
  induction fuel as [|fuel IH]; intros s word; simpl; [by rewrite elem_of_nil|].
  destruct s as [|c s]; [by rewrite elem_of_nil|].
  pose proof (read_run_Forall isalpha (skip_nonalpha (c :: s))) as Hall.
  destruct (read_run isalpha (skip_nonalpha (c :: s))) as [run strend].
  simpl in Hall. rewrite elem_of_app. intros [Hin|Hin]; [|by eapply IH].
  destruct (map lower_char run) as [|x w] eqn:Hw; [by apply elem_of_nil in Hin|].
  apply list_elem_of_singleton in Hin as ->. split; [done|].
  rewrite <- Hw. unfold lowercase. apply Forall_map.
  eapply Forall_impl; [exact Hall|]. intros a. apply lower_char_lowercase.
Qed.

(** X16. Every word that [main] hands to [StemWord] is non-empty and
    made of lowercase letters only. *)
Theorem main_line_words (line word : cstr) :
  word ∈ main_line line -> word <> [] /\ lowercase word.
Proof. apply main_words_words. Qed.

Lemma main_line_words_witness :
  main_line (lit "Don't-STOP!") = [lit "don"; lit "t"; lit "stop"] /\
  lit "stop" <> [] /\ lowercase (lit "stop").
Proof.
  assert (H : main_line (lit "Don't-STOP!") = [lit "don"; lit "t"; lit "stop"])
    by (by vm_compute).
  split; [exact H|].
  apply (main_line_words (lit "Don't-STOP!")). rewrite H.
  by apply (list_elem_of_lookup_2 _ 2%nat).
Defined.

Lemma filter_skip_nonalpha (s : cstr) :
  List.filter (fun c => isalpha (char_code c)) (skip_nonalpha s)
  = List.filter (fun c => isalpha (char_code c)) s.
Proof.
  induction s as [|c s IH]; simpl; [reflexivity|].
  destruct (isalpha (char_code c)) eqn:Ha.
  - rewrite andb_false_r. simpl. by rewrite Ha.
  - destruct (char_code c =? 0) eqn:Hz; simpl; [by rewrite Ha|exact IH].
Qed.

Lemma filter_read_run (s : cstr) :
  List.filter (fun c => isalpha (char_code c)) s
  = (read_run isalpha s).1
    ++ List.filter (fun c => isalpha (char_code c)) (tail (read_run isalpha s).2).
Proof.
  induction s as [|c s IH]; simpl; [reflexivity|].
  destruct (isalpha (char_code c)) eqn:Ha.
  - destruct (read_run isalpha s) as [run strend]. simpl in *. by f_equal.
  - reflexivity.
Qed.

Lemma main_words_letters (fuel : nat) :
  forall s : cstr,
    (length s < fuel)%nat ->
    concat (main_words fuel s)
    = map lower_char (List.filter (fun c => isalpha (char_code c)) s).
Proof.
  induction fuel as [|fuel IH]; intros s Hf; [lia|]. simpl.
  destruct s as [|c s]; [reflexivity|].
  rewrite <- (filter_skip_nonalpha (c :: s)).
  rewrite (filter_read_run (skip_nonalpha (c :: s))).
  pose proof (skip_nonalpha_length (c :: s)) as H1.
  pose proof (read_run_length isalpha (skip_nonalpha (c :: s))) as H2.
  destruct (read_run isalpha (skip_nonalpha (c :: s))) as [run strend].
  simpl in H1, H2. cbn [fst snd].
  rewrite concat_app, map_app.
  assert (Hlen : (length (tail strend) < fuel \/ tail strend = [])%nat).
  { destruct strend as [|x strend]; simpl in *; [by right|left; lia]. }
  f_equal.
  - destruct (map lower_char run); [reflexivity|]. simpl. by rewrite app_nil_r.
  - destruct Hlen as [Hlen | ->]; [by apply IH|].
    destruct fuel; reflexivity.
Qed.

(** X17. The words of a token, put end to end, are its letters in
    order, in lower case: the loop drops what is not a letter and nothing
    else, whatever the token holds. *)
Theorem main_line_letters (line : cstr) :
  concat (main_line line)
  = map lower_char (List.filter (fun c => isalpha (char_code c)) line).
Proof. apply main_words_letters. lia. Qed.

(** X18. A token made of letters only is one word, the token in lower
    case; a token without any letter gives no word. *)
Theorem main_line_single (line : cstr) :
  (line <> [] -> Forall (fun c => isalpha (char_code c) = true) line ->
   main_line line = [map lower_char line]) /\
  (Forall (fun c => isalpha (char_code c) = false) line ->
   main_line line = []).
Proof.
  split.
  - intros Hne Hall. unfold main_line. simpl.
    destruct line as [|c s]; [done|].
    assert (Hs : skip_nonalpha (c :: s) = c :: s).
    { simpl. inversion Hall as [|? ? Hc _]; subst. rewrite Hc.
      by rewrite andb_false_r. }
    rewrite Hs.
    replace (c :: s) with ((c :: s) ++ []) at 1 by apply app_nil_r.
    rewrite (read_run_exact isalpha (c :: s) []) by (assumption || reflexivity).
    simpl. destruct (length s); reflexivity.
  - intros Hnone.
    assert (Hc : concat (main_line line) = []).
    { unfold main_line. rewrite main_words_letters by lia.
      replace (List.filter _ line) with (@nil ascii); [reflexivity|].
      induction Hnone as [|c s Hc _ IH]; simpl; [reflexivity|]. by rewrite Hc. }
    destruct (main_line line) as [|w ws] eqn:Hw; [reflexivity|].
    destruct (main_words_words (S (length line)) line w) as [Hne _].
    { fold (main_line line). rewrite Hw. by left. }
    simpl in Hc. by destruct w.
Qed.

Lemma main_line_single_witness :
  main_line (lit "JUMPing") = [lit "jumping"] /\ main_line (lit "1984!") = [].
Proof.
  split.
  - apply (proj1 (main_line_single (lit "JUMPing"))); [done|].
    by repeat constructor.
  - apply (proj2 (main_line_single (lit "1984!"))). by repeat constructor.
Defined.



Section TraceBound.

Variable rules : ruleset.
Hypothesis rules_26 : length rules = 26%nat.
Hypothesis rules_ok :
  Forall (Forall (fun rule => lowercase (rule_append rule) /\ shortening rule))
         rules.
Hypothesis rules_fit : fits_table rules.



End TraceBound.


